(** * Loop-ai ingestion service: a shallow embedding of [src/index.js]

    The service keeps three pieces of process-wide state (an insertion-ordered
    [Map] of ingestions, an array used as a queue of batches, and the
    [isProcessing] flag) and one asynchronous function, [processBatches],
    that drains the queue.  Batches are JavaScript objects shared between the
    queue and the ingestion records, so the model keeps them in a heap and
    lets the queue and the records hold references.

    Conventions.
    - Request bodies are JSON values; numbers are modelled by their integer
      values.
    - [uuidv4()] is a supply of fresh identifiers (a counter).
    - [Date.now()] is read from the environment: every run of the [/ingest]
      handler is given the readings its successive calls obtain.
    - An exception thrown inside a handler is the outcome [Threw]; Express
      answers it with status 500 and the process keeps running.
    - [processBatches] is split at its [await]s into run-to-completion
      segments; the activations that are suspended at an [await] are part
      of the state. *)

From stdpp Require Import base option list strings numbers pretty sorting.

Local Open Scope Z_scope.

(** ** JSON values and the JavaScript coercions the handler applies to them *)

#[warnings="-register-all"]
Inductive json :=
| JNull
| JBool (b : bool)
| JNum (n : Z)
| JStr (s : string)
| JArr (elems : list json)
| JObj (fields : list (string * json)).

(** [!v] is [negb (ToBoolean v)]. *)
Definition ToBoolean (v : json) : bool :=
  match v with
  | JNull => false
  | JBool b => b
  | JNum n => negb (n =? 0)
  | JStr s => negb (String.eqb s "")
  | JArr _ | JObj _ => true
  end.

Definition Array_isArray (v : json) : bool :=
  match v with JArr _ => true | _ => false end.

Definition has_own_property (key : string) (fields : list (string * json)) : bool :=
  existsb (fun kv => String.eqb (fst kv) key) fields.

(** [ToString v], as ECMAScript defines it on values that came out of
    [JSON.parse].  [None] is a thrown [TypeError]: an object whose own
    [toString] property is not callable (no JSON value is) falls through to
    the inherited [valueOf], which returns the object itself, and the
    conversion to a primitive fails.  An array is converted by
    [Array.prototype.join], which renders [null] elements as the empty
    string. *)
Fixpoint ToString (v : json) : option string :=
  match v with
  | JNull => Some "null"%string
  | JBool b => Some (if b then "true" else "false")%string
  | JNum n => Some (pretty n)
  | JStr s => Some s
  | JArr elems =>
      (fix join (l : list json) : option string :=
         match l with
         | [] => Some ""%string
         | x :: rest =>
             match (match x with JNull => Some ""%string | _ => ToString x end) with
             | None => None
             | Some s =>
                 match rest with
                 | [] => Some s
                 | _ => match join rest with
                        | None => None
                        | Some r => Some (s +:+ "," +:+ r)
                        end
                 end
             end
         end) elems
  | JObj fields =>
      if has_own_property "toString" fields then None
      else Some "[object Object]"%string
  end.

(** A property access [o[v]] first converts [v] to a property key. *)
Definition ToPropertyKey (v : json) : option string := ToString v.

(** ** [PRIORITY_VALUES] and the queue comparator *)

(** What a property read on [PRIORITY_VALUES] can return: one of its three
    own numbers, [undefined], or a member inherited from [Object.prototype]
    (a function, or the prototype object itself for [__proto__]). *)
Inductive jsval :=
| VNum (z : Z)
| VUndefined
| VInherited (name : string).

Definition PRIORITY_VALUES : list (string * Z) :=
  [("HIGH", 0); ("MEDIUM", 1); ("LOW", 2)]%string.

Definition Object_prototype : list string :=
  ["constructor"; "__defineGetter__"; "__defineSetter__"; "hasOwnProperty";
   "__lookupGetter__"; "__lookupSetter__"; "isPrototypeOf";
   "propertyIsEnumerable"; "toString"; "valueOf"; "__proto__";
   "toLocaleString"]%string.

Fixpoint own_lookup (key : string) (tbl : list (string * Z)) : option Z :=
  match tbl with
  | [] => None
  | (k, z) :: rest => if String.eqb k key then Some z else own_lookup key rest
  end.

Definition PRIORITY_VALUES_get (key : string) : jsval :=
  match own_lookup key PRIORITY_VALUES with
  | Some z => VNum z
  | None =>
      if existsb (String.eqb key) Object_prototype then VInherited key
      else VUndefined
  end.

(** JavaScript numbers as far as the comparator produces them. *)
Inductive number :=
| Finite (z : Z)
| NaN.

(** [a !== b]: numbers by value, [undefined] equal to itself, the inherited
    members by identity (one object per property name). *)
Definition strict_neq (a b : jsval) : bool :=
  match a, b with
  | VNum x, VNum y => negb (x =? y)
  | VUndefined, VUndefined => false
  | VInherited n, VInherited m => negb (String.eqb n m)
  | _, _ => true
  end.

(** [a - b]: [undefined], functions and plain objects convert to [NaN]. *)
Definition js_minus (a b : jsval) : number :=
  match a, b with
  | VNum x, VNum y => Finite (x - y)
  | _, _ => NaN
  end.

Inductive status :=
| yet_to_start
| triggered
| completed.

Global Instance status_eq_dec : EqDecision status.
Proof. solve_decision. Defined.

(** Identifiers made by [uuidv4()]. *)
Abbreviation uuid := nat (only parsing).

Record batch := Batch {
  batch_id : uuid;
  ids : list json;
  batch_status : status;
  priority : json;
  created_time : Z
}.

(** The arrow function handed to [processingQueue.sort]. *)
Definition compareFn (a b : batch) : option number :=
  ka ← ToPropertyKey (priority a);
  kb ← ToPropertyKey (priority b);
  let va := PRIORITY_VALUES_get ka in
  let vb := PRIORITY_VALUES_get kb in
  Some (if strict_neq va vb then js_minus va vb
        else Finite (created_time a - created_time b)).

(** ** [Array.prototype.sort]

    ECMAScript requires a stable sort and reads a [NaN] returned by the
    comparator as [+0].  The model is the stable insertion sort; for a
    comparator that is a consistent ordering every conforming engine returns
    the same array.  A comparator that throws aborts the sort, which then
    leaves the array as it was ([None]). *)
Section ArraySort.
Context {A : Type} (comparefn : A → A → option number).

(** [SortCompare x y > 0]. *)
Definition sorts_after (x y : A) : option bool :=
  v ← comparefn x y;
  Some (match v with Finite z => 0 <? z | NaN => false end).

Fixpoint sort_insert (x : A) (l : list A) : option (list A) :=
  match l with
  | [] => Some [x]
  | y :: rest =>
      gt ← sorts_after x y;
      if gt : bool then (r ← sort_insert x rest; Some (y :: r))
      else Some (x :: y :: rest)
  end.

Fixpoint Array_sort (l : list A) : option (list A) :=
  match l with
  | [] => Some []
  | x :: rest => s ← Array_sort rest; sort_insert x s
  end.

End ArraySort.

(** ** The heap of batch objects, the store and the queue *)

(** A batch object is created once by the [/ingest] handler and from then on
    reached through references: from the queue, from the [batches] array of
    its ingestion and from the activation of [processBatches] that works on
    it. *)
Abbreviation ref := nat (only parsing).

Record ingestion := Ingestion {
  ingestion_id : uuid;
  ingestion_status : status;
  batches : list ref
}.

(** An activation of the async function [processBatches], suspended at one
    of its two [await]s. *)
Inductive activation :=
| AwaitFetch (b : ref)
| AwaitCooldown.

Record state := State {
  ingestionStore : list (uuid * ingestion);
  processingQueue : list ref;
  isProcessing : bool;
  heap : list batch;
  activations : list activation;
  next_uuid : nat
}.

Definition initial : state :=
  {| ingestionStore := []; processingQueue := []; isProcessing := false;
     heap := []; activations := []; next_uuid := 0%nat |}.

Definition set_ingestionStore (m : list (uuid * ingestion)) (st : state) : state :=
  {| ingestionStore := m; processingQueue := processingQueue st;
     isProcessing := isProcessing st; heap := heap st;
     activations := activations st; next_uuid := next_uuid st |}.

Definition set_processingQueue (q : list ref) (st : state) : state :=
  {| ingestionStore := ingestionStore st; processingQueue := q;
     isProcessing := isProcessing st; heap := heap st;
     activations := activations st; next_uuid := next_uuid st |}.

Definition set_isProcessing (b : bool) (st : state) : state :=
  {| ingestionStore := ingestionStore st; processingQueue := processingQueue st;
     isProcessing := b; heap := heap st;
     activations := activations st; next_uuid := next_uuid st |}.

Definition set_heap (h : list batch) (st : state) : state :=
  {| ingestionStore := ingestionStore st; processingQueue := processingQueue st;
     isProcessing := isProcessing st; heap := h;
     activations := activations st; next_uuid := next_uuid st |}.

Definition set_activations (a : list activation) (st : state) : state :=
  {| ingestionStore := ingestionStore st; processingQueue := processingQueue st;
     isProcessing := isProcessing st; heap := heap st;
     activations := a; next_uuid := next_uuid st |}.

(** [uuidv4()] *)
Definition uuidv4 (st : state) : uuid * state :=
  (next_uuid st,
   {| ingestionStore := ingestionStore st; processingQueue := processingQueue st;
      isProcessing := isProcessing st; heap := heap st;
      activations := activations st; next_uuid := S (next_uuid st) |}).

(** Evaluating an object literal allocates a new object. *)
Definition alloc (b : batch) (st : state) : ref * state :=
  (length (heap st), set_heap (heap st ++ [b]) st).

Definition with_status (s : status) (b : batch) : batch :=
  {| batch_id := batch_id b; ids := ids b; batch_status := s;
     priority := priority b; created_time := created_time b |}.

(** [batch.status = s] through the reference [r]. *)
Definition assign_status (r : ref) (s : status) (st : state) : state :=
  set_heap (alter (with_status s) r (heap st)) st.

Definition status_of (h : list batch) (r : ref) : option status :=
  batch_status <$> h !! r.

(** [Map.prototype.set]: an existing key keeps its position. *)
Fixpoint Map_set {V : Type} (key : uuid) (v : V) (m : list (uuid * V)) : list (uuid * V) :=
  match m with
  | [] => [(key, v)]
  | (k, w) :: rest =>
      if Nat.eqb k key then (k, v) :: rest else (k, w) :: Map_set key v rest
  end.

Fixpoint Map_get {V : Type} (key : uuid) (m : list (uuid * V)) : option V :=
  match m with
  | [] => None
  | (k, w) :: rest => if Nat.eqb k key then Some w else Map_get key rest
  end.

(** [array.slice(i, j)] for [0 <= i <= j]. *)
Definition slice {A : Type} (l : list A) (i j : nat) : list A :=
  take (j - i) (drop i l).

(** [array.findIndex(p)], with [None] for [-1]. *)
Fixpoint findIndex {A : Type} (p : A → bool) (l : list A) : option nat :=
  match l with
  | [] => None
  | x :: rest => if p x then Some 0%nat else S <$> findIndex p rest
  end.

(** ** [updateIngestionStatus] *)

Definition same_batch_id (h : list batch) (r r' : ref) : bool :=
  match h !! r, h !! r' with
  | Some b, Some b' => Nat.eqb (batch_id b) (batch_id b')
  | _, _ => false
  end.

Definition has_status (h : list batch) (s : status) (r : ref) : bool :=
  match h !! r with
  | Some b => bool_decide (batch_status b = s)
  | None => false
  end.

(** The [if / else if / else] that recomputes an ingestion's status. *)
Definition overall_status (h : list batch) (bs : list ref) : status :=
  let allCompleted := forallb (has_status h completed) bs in
  let anyTriggered := existsb (has_status h triggered) bs in
  if allCompleted then completed
  else if anyTriggered then triggered
  else yet_to_start.

(** The [for ... of ingestionStore.entries()] loop, up to its [break]. *)
Fixpoint update_entries (h : list batch) (updatedBatch : ref)
    (entries : list (uuid * ingestion)) : list (uuid * ingestion) :=
  match entries with
  | [] => []
  | (ingestionId, ingestionData) :: rest =>
      match findIndex (fun r => same_batch_id h r updatedBatch)
                      (batches ingestionData) with
      | Some batchIndex =>
          let bs := <[batchIndex := updatedBatch]> (batches ingestionData) in
          (ingestionId,
           {| ingestion_id := ingestion_id ingestionData;
              ingestion_status := overall_status h bs;
              batches := bs |}) :: rest
      | None => (ingestionId, ingestionData) :: update_entries h updatedBatch rest
      end
  end.

Definition updateIngestionStatus (updatedBatch : ref) (st : state) : state :=
  set_ingestionStore (update_entries (heap st) updatedBatch (ingestionStore st)) st.

(** ** [processBatches] *)

(** What the environment can observe of a run-to-completion segment. *)
Inductive action :=
| Shift (b : ref)                  (* processingQueue.shift() returned b *)
| Publish (b : ref) (s : status)   (* updateIngestionStatus(b), b.status = s *)
| Fetch (b : ref) (id : json)      (* fetchDataFromExternalAPI(id), id in b.ids *)
| Sleep (ms : Z)                   (* setTimeout(resolve, ms) awaited *)
| Respond (code : nat).            (* res.status(code).json(...) *)

Definition batch_ids_of (h : list batch) (r : ref) : list json :=
  match h !! r with Some b => ids b | None => [] end.

(** From the [while] test to the next [await] (or to the end of the
    function): the result is the state, the continuation the activation is
    suspended at, if any, and the actions performed. *)
Definition loop_head (st : state) : state * option activation * list action :=
  match processingQueue st with
  | [] => (set_isProcessing false st, None, [])
  | b :: rest =>
      let st1 := set_processingQueue rest st in
      let st2 := assign_status b triggered st1 in
      let st3 := updateIngestionStatus b st2 in
      (st3, Some (AwaitFetch b),
       Shift b :: Publish b triggered :: map (Fetch b) (batch_ids_of (heap st3) b))
  end.

(** The call [processBatches()]: a new activation runs up to its first
    [await]. *)
Definition processBatches (st : state) : state * list action :=
  let '(st1, k, acts) := loop_head (set_isProcessing true st) in
  (match k with
   | Some a => set_activations (activations st1 ++ [a]) st1
   | None => st1
   end, acts).

(** [await Promise.all(promises)] of activation [n] resolves. *)
Definition fetches_settled (n : nat) (st : state) : state * list action :=
  match activations st !! n with
  | Some (AwaitFetch b) =>
      let st1 := assign_status b completed st in
      let st2 := updateIngestionStatus b st1 in
      (set_activations (<[n := AwaitCooldown]> (activations st2)) st2,
       [Publish b completed; Sleep 5000])
  | _ => (st, [])
  end.

(** The five-second timer of activation [n] fires. *)
Definition cooldown_elapsed (n : nat) (st : state) : state * list action :=
  match activations st !! n with
  | Some AwaitCooldown =>
      let '(st1, k, acts) := loop_head st in
      (match k with
       | Some a => set_activations (<[n := a]> (activations st1)) st1
       | None => set_activations (delete n (activations st1)) st1
       end, acts)
  | _ => (st, [])
  end.

(** ** [POST /ingest] *)

Definition compare_refs (h : list batch) (a b : ref) : option number :=
  x ← h !! a; y ← h !! b; compareFn x y.

(** The [for] loop of the handler.  [i] is the loop variable, [n] counts the
    calls of [Date.now()] made so far and [now n] is what the next call
    returns. *)
Fixpoint create_batches (fuel : nat) (l : list json) (p : json) (now : nat → Z)
    (i n : nat) (st : state) (acc : list ref) : state * list ref :=
  match fuel with
  | O => (st, acc)
  | S fuel' =>
      if (i <? length l)%nat then
        let batchIds := slice l i (i + 3)%nat in
        let '(batchId, st1) := uuidv4 st in
        let b := {| batch_id := batchId; ids := batchIds;
                    batch_status := yet_to_start; priority := p;
                    created_time := now n |} in
        let '(r, st2) := alloc b st1 in
        let st3 := set_processingQueue (processingQueue st2 ++ [r]) st2 in
        create_batches fuel' l p now (i + 3)%nat (S n) st3 (acc ++ [r])
      else (st, acc)
  end.

Inductive outcome :=
| Rejected                      (* 400, ids must be an array *)
| Threw                         (* exception in the handler, 500 *)
| Accepted (ingestionId : uuid) (* 200 *).

Definition array_elems (v : json) : list json :=
  match v with JArr l => l | _ => [] end.

Definition ingest (ids : option json) (priority : option json) (now : nat → Z)
    (st : state) : state * outcome * list action :=
  let priority := default (JStr "MEDIUM") priority in
  let invalid :=
    match ids with
    | None => true
    | Some v => negb (ToBoolean v) || negb (Array_isArray v)
    end in
  if invalid then (st, Rejected, [Respond 400])
  else
    let l := array_elems (default JNull ids) in
    let '(ingestionId, st1) := uuidv4 st in
    let '(st2, bs) := create_batches (S (length l)) l priority now 0 0 st1 [] in
    match Array_sort (compare_refs (heap st2)) (processingQueue st2) with
    | None => (st2, Threw, [Respond 500])
    | Some q =>
        let st3 := set_processingQueue q st2 in
        let st4 := set_ingestionStore
                     (Map_set ingestionId
                        {| ingestion_id := ingestionId;
                           ingestion_status := yet_to_start;
                           batches := bs |} (ingestionStore st3)) st3 in
        let '(st5, acts) :=
          if isProcessing st4 then (st4, []) else processBatches st4 in
        (st5, Accepted ingestionId, acts ++ [Respond 200])
    end.

(** ** [GET /status/:ingestionId] *)

Definition get_status (ingestionId : uuid) (st : state)
    : option (ingestion * list (option batch)) :=
  d ← Map_get ingestionId (ingestionStore st);
  Some (d, map (fun r => heap st !! r) (batches d)).

(** ** The system as a transition function *)

Inductive event :=
| PostIngest (ids priority : option json) (now : nat → Z)
| GetStatus (ingestionId : uuid)
| FetchesSettled (n : nat)
| CooldownElapsed (n : nat).

Definition step (st : state) (e : event) : state * list action :=
  match e with
  | PostIngest ids p now => let '(st', _, acts) := ingest ids p now st in (st', acts)
  | GetStatus ingestionId =>
      (st, [Respond (match get_status ingestionId st with
                     | Some _ => 200 | None => 404 end)%nat])
  | FetchesSettled n => fetches_settled n st
  | CooldownElapsed n => cooldown_elapsed n st
  end.

Definition run (evs : list event) : state :=
  fold_left (fun st e => fst (step st e)) evs initial.

Definition trace_from (st : state) (evs : list event) : list action :=
  snd (fold_left (fun '(st, tr) e => let '(st', acts) := step st e in (st', tr ++ acts))
                 evs (st, [])).

(** * Vocabulary of the properties *)

(** ** Runs *)

Definition run_from (st : state) (evs : list event) : state :=
  fold_left (λ s e, (step s e).1) evs st.

(** The batch objects allocated between [st] and [st']. *)
Definition created_by (st st' : state) : list batch :=
  drop (length (heap st)) (heap st').

(** Everything of a batch but its status. *)
Definition frozen (b : batch) : uuid * list json * json * Z :=
  (batch_id b, ids b, priority b, created_time b).

(** ** The handler's loop in closed form *)

(** Number of batches made from [len] identifiers: [ceil (len / 3)]. *)
Definition batch_count (len : nat) : nat := ((len + 2) / 3)%nat.

(** The batch object the loop creates in its [k]-th iteration from now on,
    when the identifier supply is at [u0], the loop variable at [i] and [n]
    calls of [Date.now()] have been made. *)
Definition kth_batch (l : list json) (p : json) (now : nat → Z) (u0 i n k : nat) : batch :=
  {| batch_id := (u0 + k)%nat; ids := slice l (i + 3 * k)%nat (i + 3 * k + 3)%nat;
     batch_status := yet_to_start; priority := p; created_time := now (n + k)%nat |}.

(** The state after [m] more iterations. *)
Definition after_loop (l : list json) (p : json) (now : nat → Z) (i n m : nat)
    (st : state) : state :=
  {| ingestionStore := ingestionStore st;
     processingQueue := processingQueue st ++ seq (length (heap st)) m;
     isProcessing := isProcessing st;
     heap := heap st ++ map (kth_batch l p now (next_uuid st) i n) (seq 0 m);
     activations := activations st;
     next_uuid := (next_uuid st + m)%nat |}.

(** The state when the handler's loop is over, the references of the new
    batches, the record the handler stores, and the state once the queue is
    sorted into [q] and the record stored. *)
Definition loop_done (l : list json) (p : option json) (now : nat → Z)
    (st : state) : state :=
  after_loop l (default (JStr "MEDIUM") p) now 0 0 (batch_count (length l))
    (uuidv4 st).2.

Definition new_refs (l : list json) (st : state) : list ref :=
  seq (length (heap st)) (batch_count (length l)).

Definition stored_record (ingestionId : uuid) (bs : list ref) : ingestion :=
  {| ingestion_id := ingestionId; ingestion_status := yet_to_start; batches := bs |}.

Definition stored (l : list json) (p : option json) (now : nat → Z)
    (st : state) (q : list ref) : state :=
  set_ingestionStore
    (Map_set (next_uuid st) (stored_record (next_uuid st) (new_refs l st))
       (ingestionStore (loop_done l p now st)))
    (set_processingQueue q (loop_done l p now st)).

(** ** Reconciliation in closed form *)

Definition all_refs (m : list (uuid * ingestion)) : list ref :=
  concat ((λ kd, batches kd.2) <$> m).

(** What the scan of [updateIngestionStatus] does to one entry once batch
    ids identify batch objects: the entry that holds the batch gets its
    status recomputed. *)
Definition refresh (h : list batch) (r : ref) (kd : uuid * ingestion) : uuid * ingestion :=
  if bool_decide (r ∈ batches kd.2)
  then (kd.1, {| ingestion_id := ingestion_id kd.2;
                 ingestion_status := overall_status h (batches kd.2);
                 batches := batches kd.2 |})
  else kd.

(** ** Invariants *)

(** The data invariant: queued batches are waiting and queued once, batch
    ids identify batch objects, identifiers in use come from the supply, a
    batch object belongs to at most one stored ingestion, and a stored
    ingestion that has batches carries the status its batches determine. *)
Record data_inv (st : state) : Prop := DataInv {
  di_queue_fresh : ∀ r, r ∈ processingQueue st →
                        status_of (heap st) r = Some yet_to_start;
  di_queue_nodup : NoDup (processingQueue st);
  di_batch_ids : NoDup (batch_id <$> heap st);
  di_batch_bound : ∀ i, i ∈ batch_id <$> heap st → (i < next_uuid st)%nat;
  di_store_bound : ∀ k, k ∈ fst <$> ingestionStore st → (k < next_uuid st)%nat;
  di_store_refs : ∀ r, r ∈ all_refs (ingestionStore st) → (r < length (heap st))%nat;
  di_store_nodup : NoDup (all_refs (ingestionStore st));
  di_status : ∀ k d, (k, d) ∈ ingestionStore st → batches d ≠ [] →
                     ingestion_status d = overall_status (heap st) (batches d);
  di_empty : ∀ k d, (k, d) ∈ ingestionStore st → batches d = [] →
                    ingestion_status d = yet_to_start
}.

(** The control invariant: at most one activation of [processBatches] is
    alive, [isProcessing] says whether one is, and the batches whose status
    is [triggered] are exactly those an activation awaits the fetches of. *)
Record control_inv (st : state) : Prop := ControlInv {
  ci_single : (length (activations st) ≤ 1)%nat;
  ci_flag : isProcessing st = true ↔ activations st ≠ [];
  ci_inflight : ∀ r, status_of (heap st) r = Some triggered
                     ↔ AwaitFetch r ∈ activations st
}.

Definition none_in_flight (st : state) : Prop :=
  ∀ r, status_of (heap st) r ≠ Some triggered.

(** The record of an ingestion without batches is in the store, under an
    identifier the supply has already handed out. *)
Definition empty_record_kept (id : uuid) (st : state) : Prop :=
  Map_get id (ingestionStore st) = Some (stored_record id [])
  ∧ (id < next_uuid st)%nat.

(** ** Validation (C6) *)

(** The rejection condition as the specification words it. *)
Definition missing_not_a_list_or_empty (ids : option json) : Prop :=
  ids = None ∨ (∃ v, ids = Some v ∧ Array_isArray v = false) ∨ ids = Some (JArr []).

(** ** Creation timestamps (C7) *)

(** C7 as the specification words it: the batches of one call share one
    [created_time]. *)
Definition shared_created_time (l : list json) (p : option json)
    (now : nat → Z) (st : state) : Prop :=
  ∀ b1 b2, b1 ∈ created_by st (ingest (Some (JArr l)) p now st).1.1 →
           b2 ∈ created_by st (ingest (Some (JArr l)) p now st).1.1 →
           created_time b1 = created_time b2.

(** ** The cooldown (C4) *)

(** C4 as the specification words it: when the batch just completed was the
    last one, the loop ends without the pause. *)
Definition no_pause_when_drained (st : state) (n : nat) : Prop :=
  ∀ b, activations st !! n = Some (AwaitFetch b) → processingQueue st = [] →
       (Sleep 5000 ∉ (fetches_settled n st).2)
       ∧ isProcessing (fetches_settled n st).1 = false.

(** ** Aggregate status (C2) *)

(** The formula of the specification: [completed] if all batches are
    completed; [triggered] if not all are completed and at least one is
    triggered; otherwise [yet_to_start]. *)
Definition aggregate_spec (h : list batch) (bs : list ref) (s : status) : Prop :=
  let all_completed := ∀ r, r ∈ bs → status_of h r = Some completed in
  let any_triggered := ∃ r, r ∈ bs ∧ status_of h r = Some triggered in
  (all_completed → s = completed)
  ∧ (¬ all_completed → any_triggered → s = triggered)
  ∧ (¬ all_completed → ¬ any_triggered → s = yet_to_start).

(** C2 as the specification words it: every stored ingestion carries the
    status the formula gives. *)
Definition status_consistent (st : state) : Prop :=
  ∀ k d, (k, d) ∈ ingestionStore st →
         aggregate_spec (heap st) (batches d) (ingestion_status d).

(** ** Status transitions (C5) *)

(** One stage forward, or no change. *)
Definition advance (s s' : status) : Prop :=
  s' = s ∨ (s = yet_to_start ∧ s' = triggered) ∨ (s = triggered ∧ s' = completed).

(** Between two heaps every batch object keeps its immutable fields and its
    status advances. *)
Definition heap_advance (h h' : list batch) : Prop :=
  ∀ r b, h !! r = Some b →
         ∃ b', h' !! r = Some b' ∧ frozen b' = frozen b
               ∧ advance (batch_status b) (batch_status b').

(** In a sequence of actions, every fetch for a batch comes after the
    publication of that batch's [triggered] status. *)
Definition publish_before_fetch (tr : list action) : Prop :=
  ∀ i b id, tr !! i = Some (Fetch b id) →
            ∃ j, (j < i)%nat ∧ tr !! j = Some (Publish b triggered).

(** ** Priorities and scheduling order (C1, C9, C10) *)

(** The priority rank of a priority value: the number, if any, that
    [PRIORITY_VALUES[priority]] evaluates to. *)
Definition rank (p : json) : option Z :=
  match ToPropertyKey p with
  | Some k => match PRIORITY_VALUES_get k with VNum z => Some z | _ => None end
  | None => None
  end.

(** The priority of the batch behind [r] cannot be converted to a property
    key (or [r] is dangling, which no reachable state has). *)
Definition key_throws (h : list batch) (r : ref) : bool :=
  match h !! r with
  | Some b => match ToPropertyKey (priority b) with Some _ => false | None => true end
  | None => true
  end.

(** The scheduling key of a queued batch: its priority rank, then its
    creation time.  A batch whose priority has no rank has no key. *)
Definition sched_key (h : list batch) (r : ref) : option (Z * Z) :=
  match h !! r with
  | Some b => match rank (priority b) with
              | Some rk => Some (rk, created_time b)
              | None => None
              end
  | None => None
  end.

(** Lexicographic order on keys. *)
Definition key_le (a b : Z * Z) : Prop :=
  a.1 < b.1 ∨ (a.1 = b.1 ∧ a.2 ≤ b.2).

(** Both batches have a key and the first is not after the second. *)
Definition sched_le (h : list batch) (r r' : ref) : Prop :=
  ∃ k k', sched_key h r = Some k ∧ sched_key h r' = Some k' ∧ key_le k k'.

(** C1 as the specification words it: the front of the queue is minimal
    under (priority rank, created_time), that is, no queued batch that has a
    key is before it. *)
Definition front_minimal (h : list batch) (q : list ref) : Prop :=
  match q with
  | [] => True
  | f :: rest => ∀ r, r ∈ rest → is_Some (sched_key h r) → sched_le h f r
  end.

(** Every batch created so far has a priority with a rank. *)
Definition all_ranked (h : list batch) : Prop :=
  ∀ b, b ∈ h → is_Some (rank (priority b)).

Definition sorted_inv (st : state) : Prop :=
  all_ranked (heap st) →
  StronglySorted (sched_le (heap st)) (processingQueue st).

(** ** Scenarios *)

Definition request (l : list string) (p : string) (t : Z) : event :=
  PostIngest (Some (JArr (JStr <$> l))) (Some (JStr p)) (λ _, t).

Definition four_ids : list json := [JStr "a"; JStr "b"; JStr "c"; JStr "d"].

Definition one_id : event :=
  PostIngest (Some (JArr [JStr "a"])) None (λ _, 0).

(** An ingestion without batches, then one batch that is processed. *)
Definition c2_events : list event :=
  [PostIngest (Some (JArr [])) None (λ _, 0); one_id; FetchesSettled 0].

(** A priority that is an object with an own [toString] property. *)
Definition poisoned_priority : json := JObj [("toString"%string, JNum 1)].

Definition poison : event :=
  PostIngest (Some (JArr four_ids)) (Some poisoned_priority) (λ _, 0).

(** A MEDIUM batch is in flight; then a batch with the priority URGENT and,
    later, a HIGH batch are submitted. *)
Definition c1_events : list event :=
  [request ["a"] "MEDIUM" 0; request ["b"] "URGENT" 1; request ["c"] "HIGH" 2]%string.

(** A MEDIUM batch is in flight; then two LOW batches and a HIGH batch are
    submitted. *)
Definition c1_ranked_events : list event :=
  [request ["a"] "MEDIUM" 0; request ["b"; "c"; "d"; "e"] "LOW" 1;
   request ["f"] "HIGH" 2]%string.

(** The scenario of the specification: seven identifiers and no priority. *)
Definition seven_ids : event :=
  PostIngest (Some (JArr (JStr <$> ["a"; "b"; "c"; "d"; "e"; "f"; "g"]%string)))
             None (λ _, 0).


(** ** Further vocabulary: the store, the queue and the drain *)

(** Batch objects are never removed and keep their immutable fields. *)
Definition heap_extends (h h' : list batch) : Prop :=
  ∀ r b, h !! r = Some b → ∃ b', h' !! r = Some b' ∧ frozen b' = frozen b.

(** Every batch that is still [yet_to_start] is in the queue. *)
Definition queued_inv (st : state) : Prop :=
  ∀ r, status_of (heap st) r = Some yet_to_start → r ∈ processingQueue st.

(** Every batch object holds one, two or three identifiers. *)
Definition sizes_inv (st : state) : Prop :=
  ∀ b, b ∈ heap st → (1 ≤ length (ids b) ≤ 3)%nat.

(** The sort of the queue would throw: there are at least two queued
    batches and the priority of one of them has no property key. *)
Definition sort_would_throw (st : state) : Prop :=
  (2 ≤ length (processingQueue st))%nat
  ∧ ∃ r, r ∈ processingQueue st ∧ key_throws (heap st) r = true.

(** One turn of the environment for the activation at index 0: the fetches
    settle, then the timer fires. *)
Definition drain_round : list event := [FetchesSettled 0; CooldownElapsed 0].

Fixpoint drain_rounds (k : nat) : list event :=
  match k with
  | O => []
  | S k' => drain_round ++ drain_rounds k'
  end.

(** Nothing is left to do: no queue, no loop, every batch completed and
    every stored ingestion that has batches completed. *)
Definition drained (st : state) : Prop :=
  processingQueue st = [] ∧ isProcessing st = false ∧ activations st = []
  ∧ (∀ b, b ∈ heap st → batch_status b = completed)
  ∧ (∀ k d, (k, d) ∈ ingestionStore st → batches d ≠ [] →
            ingestion_status d = completed).

(** Ties are served first in, first out: [r] is not after [r'] and, when
    their keys are equal, [r] was created first. *)
Definition fifo_le (h : list batch) (r r' : ref) : Prop :=
  sched_le h r r' ∧ (sched_key h r = sched_key h r' → (r < r')%nat).

(** [r] may stand before [r'] in the array given to the sort without
    breaking first in, first out. *)
Definition tie_ordered (h : list batch) (r r' : ref) : Prop :=
  sched_key h r = sched_key h r' → (r < r')%nat.

Definition fifo_inv (st : state) : Prop :=
  all_ranked (heap st) →
  StronglySorted (fifo_le (heap st)) (processingQueue st).

(** The scheduling key of a batch object. *)
Definition batch_key (b : batch) : option (Z * Z) :=
  match rank (priority b) with
  | Some rk => Some (rk, created_time b)
  | None => None
  end.

Definition key_lt (a b : Z * Z) : Prop :=
  a.1 < b.1 ∨ (a.1 = b.1 ∧ a.2 < b.2).

Definition seven : list json :=
  JStr <$> ["a"; "b"; "c"; "d"; "e"; "f"; "g"]%string.

Definition is_respond (a : action) : bool :=
  match a with Respond _ => true | _ => false end.

Definition outcome_code (o : outcome) : nat :=
  match o with Rejected => 400 | Threw => 500 | Accepted _ => 200 end%nat.

(** * Properties *)

(** ** The model at work *)

(** An array is converted to a property key by joining its elements, a plain
    object by [Object.prototype.toString]; an object with an own [toString]
    property cannot be converted. *)
Example ToPropertyKey_array :
  ToPropertyKey (JArr [JStr "HIGH"]) = Some "HIGH"%string
  ∧ ToPropertyKey (JArr [JNum 1; JNull; JBool true]) = Some "1,,true"%string
  ∧ ToPropertyKey (JObj []) = Some "[object Object]"%string
  ∧ ToPropertyKey poisoned_priority = None.
Proof. repeat split; by vm_compute. Qed.

Example PRIORITY_VALUES_reads :
  PRIORITY_VALUES_get "HIGH" = VNum 0
  ∧ PRIORITY_VALUES_get "URGENT" = VUndefined
  ∧ PRIORITY_VALUES_get "constructor" = VInherited "constructor".
Proof. repeat split; by vm_compute. Qed.

(** Seven identifiers and no priority: three batches of sizes 3, 3 and 1
    with the priority MEDIUM; as no loop is running the first batch is
    dispatched before the handler answers. *)
Example seven_ids_scenario :
  (length ∘ ids) <$> heap (run [seven_ids]) = [3; 3; 1]%nat
  ∧ priority <$> heap (run [seven_ids]) = [JStr "MEDIUM"; JStr "MEDIUM"; JStr "MEDIUM"]
  ∧ batch_status <$> heap (run [seven_ids]) = [triggered; yet_to_start; yet_to_start]
  ∧ processingQueue (run [seven_ids]) = [1; 2]%nat
  ∧ get_status 0 (run [seven_ids])
    = Some (Ingestion 0 triggered [0; 1; 2]%nat, Some <$> heap (run [seven_ids])).
Proof. repeat split; by vm_compute. Qed.

(** Two LOW batches, then a HIGH batch while the first LOW batch is in
    flight: the HIGH batch is dispatched before the second LOW batch. *)
Example high_overtakes_queued_low :
  trace_from initial
    [request ["a"; "b"; "c"; "d"] "LOW" 0; request ["e"] "HIGH" 1;
     FetchesSettled 0; CooldownElapsed 0; FetchesSettled 0; CooldownElapsed 0;
     FetchesSettled 0; CooldownElapsed 0]%string
  = [Shift 0%nat; Publish 0%nat triggered;
     Fetch 0%nat (JStr "a"); Fetch 0%nat (JStr "b"); Fetch 0%nat (JStr "c");
     Respond 200; Respond 200;
     Publish 0%nat completed; Sleep 5000;
     Shift 2%nat; Publish 2%nat triggered; Fetch 2%nat (JStr "e");
     Publish 2%nat completed; Sleep 5000;
     Shift 1%nat; Publish 1%nat triggered; Fetch 1%nat (JStr "d");
     Publish 1%nat completed; Sleep 5000].
Proof. by vm_compute. Qed.


(** ** The [for] loop in closed form *)

Lemma create_batches_closed fuel : ∀ l p now i n st acc,
  (length l ≤ i + 3 * fuel)%nat →
  ∃ m, (length l ≤ i + 3 * m)%nat ∧ (m = 0%nat ∨ i + 3 * m < length l + 3)%nat ∧
       create_batches fuel l p now i n st acc
       = (after_loop l p now i n m st, acc ++ seq (length (heap st)) m).
Proof.
  induction fuel as [|fuel IH]; intros l p now i n st acc Hfuel.
  - exists 0%nat. split; [lia|]. split; [by left|].
    destruct st; unfold after_loop; simpl.
    by rewrite !app_nil_r, Nat.add_0_r.
  - simpl. destruct (Nat.ltb_spec i (length l)) as [Hlt|Hge].
    + match goal with |- context [create_batches fuel l p now _ _ ?s ?a] =>
        destruct (IH l p now (i + 3)%nat (S n) s a) as (m & Hm1 & Hm2 & ->); [lia|]
      end.
      exists (S m). split; [lia|]. split; [right; lia|].
      unfold after_loop; simpl. rewrite length_app; simpl.
      rewrite <- !(assoc_L (++)); simpl.
      rewrite Nat.add_1_r, <- Nat.add_succ_r.
      do 2 f_equal.
      f_equal. f_equal.
      * unfold kth_batch. f_equal; [lia | f_equal; lia | f_equal; lia].
      * rewrite <- fmap_S_seq, <- list_fmap_compose.
        apply list_fmap_ext; intros ? k _; simpl.
        unfold kth_batch. f_equal; [lia | f_equal; lia | f_equal; lia].
    + exists 0%nat. split; [lia|]. split; [by left|].
      destruct st; unfold after_loop; simpl.
      by rewrite !app_nil_r, Nat.add_0_r.
Qed.

Lemma batch_count_unique len m :
  (len ≤ 3 * m)%nat → (m = 0%nat ∨ 3 * m < len + 3)%nat → m = batch_count len.
Proof.
  intros H1 H2. unfold batch_count.
  apply Nat.div_unique with (r := (len + 2 - 3 * m)%nat); lia.
Qed.

Lemma batch_count_bounds len :
  (len ≤ 3 * batch_count len)%nat ∧ (3 * batch_count len < len + 3)%nat.
Proof.
  unfold batch_count.
  pose proof (Nat.div_mod_eq (len + 2) 3) as Hd.
  pose proof (Nat.mod_upper_bound (len + 2) 3) as Hm.
  lia.
Qed.

Lemma create_batches_total l p now st :
  create_batches (S (length l)) l p now 0 0 st []
  = (after_loop l p now 0 0 (batch_count (length l)) st,
     seq (length (heap st)) (batch_count (length l))).
Proof.
  destruct (create_batches_closed (S (length l)) l p now 0 0 st [])
    as (m & Hm1 & Hm2 & ->); [lia|].
  assert (m = batch_count (length l)) as ->.
  { apply batch_count_unique; lia. }
  done.
Qed.

Lemma ingest_array l p now st :
  ingest (Some (JArr l)) p now st =
    let st2 := after_loop l (default (JStr "MEDIUM") p) now 0 0
                 (batch_count (length l)) (snd (uuidv4 st)) in
    let bs := seq (length (heap st)) (batch_count (length l)) in
    match Array_sort (compare_refs (heap st2)) (processingQueue st2) with
    | None => (st2, Threw, [Respond 500])
    | Some q =>
        let st4 := set_ingestionStore
                     (Map_set (next_uuid st) (stored_record (next_uuid st) bs)
                        (ingestionStore st2)) (set_processingQueue q st2) in
        let '(st5, acts) :=
          if isProcessing st then (st4, []) else processBatches st4 in
        (st5, Accepted (next_uuid st), acts ++ [Respond 200])
    end.
Proof.
  unfold ingest. cbn [ToBoolean Array_isArray negb orb default array_elems uuidv4 snd].
  rewrite create_batches_total. reflexivity.
Qed.

Lemma array_or_not (ids : option json) :
  (∃ l, ids = Some (JArr l)) ∨ (∀ l, ids ≠ Some (JArr l)).
Proof. destruct ids as [[]|]; eauto. Qed.

Lemma ingest_not_array ids p now st :
  (∀ l, ids ≠ Some (JArr l)) →
  ingest ids p now st = (st, Rejected, [Respond 400]).
Proof.
  intros Hids. unfold ingest.
  destruct ids as [v|]; [|done].
  destruct v; try (by rewrite orb_true_r). by destruct (Hids elems).
Qed.

(** ** What never changes in a batch object *)

Lemma frozen_alter_status s r (h : list batch) :
  frozen <$> alter (with_status s) r h = frozen <$> h.
Proof.
  rewrite (list_fmap_alter frozen (with_status s) id).
  - by apply list_alter_id.
  - by apply Forall_forall.
Qed.

Lemma loop_head_frozen st :
  frozen <$> heap (loop_head st).1.1 = frozen <$> heap st.
Proof.
  unfold loop_head. destruct (processingQueue st) as [|b rest]; [done|].
  simpl. apply frozen_alter_status.
Qed.

Lemma processBatches_frozen st :
  frozen <$> heap (processBatches st).1 = frozen <$> heap st.
Proof.
  unfold processBatches.
  pose proof (loop_head_frozen (set_isProcessing true st)) as H.
  destruct (loop_head (set_isProcessing true st)) as [[st1 [a|]] acts]; simpl in *; done.
Qed.

Lemma fetches_settled_frozen n st :
  frozen <$> heap (fetches_settled n st).1 = frozen <$> heap st.
Proof.
  unfold fetches_settled. destruct (activations st !! n) as [[b|]|]; [|done..].
  simpl. apply frozen_alter_status.
Qed.

Lemma cooldown_elapsed_frozen n st :
  frozen <$> heap (cooldown_elapsed n st).1 = frozen <$> heap st.
Proof.
  unfold cooldown_elapsed. destruct (activations st !! n) as [[b|]|]; [done| |done].
  pose proof (loop_head_frozen st) as H.
  destruct (loop_head st) as [[st1 [a|]] acts]; simpl in *; done.
Qed.

Lemma ingest_frozen ids p now st :
  frozen <$> heap (ingest ids p now st).1.1
  = (frozen <$> heap st)
    ++ (frozen <$> (kth_batch (array_elems (default JNull ids))
                      (default (JStr "MEDIUM") p) now (S (next_uuid st)) 0 0
                    <$> seq 0 (if (ingest ids p now st).1.2 is Rejected then 0%nat
                               else batch_count (length (array_elems (default JNull ids)))))).
Proof.
  destruct (array_or_not ids) as [[l ->]|Hno]; last first.
  { rewrite ingest_not_array by done. cbn. by rewrite app_nil_r. }
  rewrite ingest_array. cbn zeta. cbn [default array_elems].
  set (st2 := after_loop _ _ _ _ _ _ _).
  assert (frozen <$> heap st2 = (frozen <$> heap st) ++
            (frozen <$> (kth_batch l (default (JStr "MEDIUM") p) now (S (next_uuid st)) 0 0
                           <$> seq 0 (batch_count (length l))))) as Hst2.
  { unfold st2. cbn. by rewrite fmap_app. }
  destruct (Array_sort _ _) as [q|]; [|done].
  destruct (isProcessing st); [done|].
  match goal with |- context [processBatches ?s] =>
    pose proof (processBatches_frozen s) as Hp; destruct (processBatches s) as [st5 acts]
  end.
  cbn in *. by rewrite Hp.
Qed.

Lemma created_by_ingest_frozen l p now st :
  frozen <$> created_by st (ingest (Some (JArr l)) p now st).1.1
  = frozen <$> (kth_batch l (default (JStr "MEDIUM") p) now (S (next_uuid st)) 0 0
                <$> seq 0 (batch_count (length l))).
Proof.
  unfold created_by. rewrite fmap_drop, ingest_frozen.
  rewrite drop_app_length' by (by rewrite length_fmap).
  rewrite ingest_array. cbn zeta. cbn [default array_elems].
  destruct (Array_sort _ _); [|done].
  by destruct (if isProcessing st then _ else _).
Qed.

Lemma created_by_ingest_lookup l p now st k b :
  created_by st (ingest (Some (JArr l)) p now st).1.1 !! k = Some b →
  (k < batch_count (length l))%nat ∧
  frozen b = frozen (kth_batch l (default (JStr "MEDIUM") p) now (S (next_uuid st)) 0 0 k).
Proof.
  intros Hk.
  assert ((frozen <$> created_by st (ingest (Some (JArr l)) p now st).1.1) !! k
          = Some (frozen b)) as Hf by (by rewrite list_lookup_fmap, Hk).
  rewrite created_by_ingest_frozen, <- list_fmap_compose, list_lookup_fmap in Hf.
  destruct (seq 0 (batch_count (length l)) !! k) as [j|] eqn:Hj; [|done].
  apply lookup_seq in Hj as [-> Hlt]. simpl in Hf. split; [done|]. congruence.
Qed.

Lemma created_by_ingest_length l p now st :
  length (created_by st (ingest (Some (JArr l)) p now st).1.1) = batch_count (length l).
Proof.
  rewrite <- (length_fmap frozen), created_by_ingest_frozen.
  by rewrite !length_fmap, length_seq.
Qed.

(** ** The batch splitter *)

Lemma concat_slices (l : list json) m :
  concat ((λ k, slice l (3 * k) (3 * k + 3)) <$> seq 0 m) = take (3 * m) l.
Proof.
  induction m as [|m IH]; [done|].
  rewrite seq_S, fmap_app, concat_app, IH. simpl. rewrite app_nil_r.
  unfold slice. replace (3 * m + 3 - 3 * m)%nat with 3%nat by lia.
  rewrite take_take_drop. f_equal. lia.
Qed.

Lemma created_by_ingest_ids l p now st :
  ids <$> created_by st (ingest (Some (JArr l)) p now st).1.1
  = (λ k, slice l (3 * k) (3 * k + 3)) <$> seq 0 (batch_count (length l)).
Proof.
  transitivity ((λ f : uuid * list json * json * Z, f.1.1.2) <$>
                (frozen <$> created_by st (ingest (Some (JArr l)) p now st).1.1)).
  { rewrite <- list_fmap_compose. by apply list_fmap_ext. }
  rewrite created_by_ingest_frozen, <- !list_fmap_compose.
  by apply list_fmap_ext.
Qed.

(** ** Validation of [ids] *)

(** C6, as stated, fails: a request whose [ids] is the empty array is
    answered with 200 and an ingestion id. *)
Lemma C6_empty_list_is_accepted :
  (ingest (Some (JArr [])) None (λ _, 0) initial).1.2 = Accepted 0%nat
  ∧ ¬ ((ingest (Some (JArr [])) None (λ _, 0) initial).1.2 = Rejected
       ↔ missing_not_a_list_or_empty (Some (JArr []))).
Proof.
  split; [reflexivity|].
  intros [_ H]. unfold missing_not_a_list_or_empty in H.
  discriminate H. auto.
Qed.

(** C6, amended.  The handler answers 400 exactly when [ids] is missing or
    is not an array; an empty array is never rejected. *)
Theorem C6_rejected_iff_not_an_array (ids p : option json) (now : nat → Z) (st : state) :
  ((ingest ids p now st).1.2 = Rejected
   ↔ ids = None ∨ (∃ v, ids = Some v ∧ Array_isArray v = false))
  ∧ (ingest (Some (JArr [])) p now st).1.2 ≠ Rejected.
Proof.
  assert (∀ l, (ingest (Some (JArr l)) p now st).1.2 ≠ Rejected) as Harr.
  { intros l. rewrite ingest_array. cbn zeta.
    destruct (Array_sort _ _); [|done].
    by destruct (if isProcessing st then _ else _). }
  split; [|apply Harr].
  destruct (array_or_not ids) as [[l ->]|Hno].
  - split; [by intros ?%Harr|].
    intros [?|(v & [= <-] & ?)]; done.
  - rewrite ingest_not_array by done. split; [intros _|done].
    destruct ids as [v|]; [right|by left].
    exists v. split; [done|]. destruct v; try done. by destruct (Hno elems).
Qed.

(** ** Creation timestamps *)

(** C7, as stated, fails: [Date.now()] is called once per loop iteration, so
    when the clock ticks between two iterations the two batches of one call
    carry different timestamps. *)
Lemma C7_created_time_differs :
  created_time <$> created_by initial
     (ingest (Some (JArr four_ids)) None (λ n, 1000 + Z.of_nat n) initial).1.1
  = [1000; 1001]
  ∧ ¬ shared_created_time four_ids None (λ n, 1000 + Z.of_nat n) initial.
Proof.
  split; [reflexivity|].
  intros H.
  specialize (H (Batch 1%nat [JStr "a"; JStr "b"; JStr "c"] triggered (JStr "MEDIUM") 1000)
                (Batch 2%nat [JStr "d"] yet_to_start (JStr "MEDIUM") 1001)).
  discriminate H; cbv; [left | right; left].
Qed.

(** C7, amended.  The [k]-th batch of a call carries the value that the
    [k]-th call of [Date.now()] in that run of the handler returned; the
    batches of the call share one timestamp whenever the clock shows one value
    throughout the loop. *)
Theorem C7_created_time_per_batch (l : list json) (p : option json)
    (now : nat → Z) (st : state) :
  (∀ k b, created_by st (ingest (Some (JArr l)) p now st).1.1 !! k = Some b →
          created_time b = now k)
  ∧ ((∀ j k, (j < batch_count (length l))%nat → (k < batch_count (length l))%nat →
             now j = now k) →
     shared_created_time l p now st).
Proof.
  assert (∀ k b, created_by st (ingest (Some (JArr l)) p now st).1.1 !! k = Some b →
                 (k < batch_count (length l))%nat ∧ created_time b = now k) as Hk.
  { intros k b Hb. apply created_by_ingest_lookup in Hb as [Hlt Hf].
    split; [done|]. by injection Hf. }
  split; [intros k b Hb; by apply Hk|].
  intros Hclock b1 b2 [k1 H1]%list_elem_of_lookup [k2 H2]%list_elem_of_lookup.
  apply Hk in H1 as [? ->], H2 as [? ->]. by apply Hclock.
Qed.

(** ** The cooldown *)

(** C4, as stated, fails: after the only batch of a drain is completed the
    activation still awaits the five-second timer, and [isProcessing] stays
    [true] until the timer has fired. *)
Lemma C4_final_batch_is_followed_by_cooldown :
  processingQueue (run [one_id]) = []
  ∧ step (run [one_id]) (FetchesSettled 0)
    = (run [one_id; FetchesSettled 0], [Publish 0%nat completed; Sleep 5000])
  ∧ activations (run [one_id; FetchesSettled 0]) = [AwaitCooldown]
  ∧ isProcessing (run [one_id; FetchesSettled 0]) = true
  ∧ ¬ no_pause_when_drained (run [one_id]) 0.
Proof.
  do 4 (split; [by vm_compute|]).
  intros H. destruct (H 0%nat) as [_ Hp]; [by vm_compute..|].
  vm_compute in Hp. discriminate Hp.
Qed.

(** C4, amended.  When the fetches of a batch have settled the activation
    publishes [completed] and then always awaits the five-second timer,
    whatever the queue holds; the queue is tested only once the timer has
    fired: if it is empty then, the loop ends ([isProcessing] becomes
    [false]) and otherwise the front batch is dequeued. *)
Theorem C4_cooldown_after_every_batch (st : state) (n : nat) (b : ref) :
  activations st !! n = Some (AwaitFetch b) →
  let st' := (fetches_settled n st).1 in
  (fetches_settled n st).2 = [Publish b completed; Sleep 5000]
  ∧ activations st' !! n = Some AwaitCooldown
  ∧ processingQueue st' = processingQueue st
  ∧ isProcessing st' = isProcessing st
  ∧ (processingQueue st' = [] →
       (cooldown_elapsed n st').2 = []
       ∧ isProcessing (cooldown_elapsed n st').1 = false
       ∧ activations (cooldown_elapsed n st').1 = delete n (activations st'))
  ∧ (∀ r rest, processingQueue st' = r :: rest →
       ∃ acts, (cooldown_elapsed n st').2 = Shift r :: acts).
Proof.
  intros Ha. cbn zeta. unfold fetches_settled. rewrite Ha. cbn [fst snd].
  set (st2 := updateIngestionStatus b (assign_status b completed st)).
  assert (activations (set_activations (<[n:=AwaitCooldown]> (activations st2)) st2) !! n
          = Some AwaitCooldown) as Hn.
  { cbn. apply list_lookup_insert_eq. by eapply lookup_lt_Some. }
  split; [done|]. split; [done|]. split; [done|]. split; [done|].
  split.
  - intros Hq. unfold cooldown_elapsed. rewrite Hn.
    unfold loop_head. cbn in Hq |- *. by rewrite Hq.
  - intros r rest Hq. unfold cooldown_elapsed. rewrite Hn.
    unfold loop_head. cbn in Hq |- *. rewrite Hq. cbn. eauto.
Qed.

Lemma C4_cooldown_after_every_batch_witness :
  (fetches_settled 0 (run [one_id])).2 = [Publish 0%nat completed; Sleep 5000].
Proof.
  apply (C4_cooldown_after_every_batch (run [one_id]) 0%nat 0%nat).
  by vm_compute.
Defined.

(** ** Reconciliation: [updateIngestionStatus] in closed form *)

Lemma findIndex_Some {A} (p : A → bool) l i :
  findIndex p l = Some i → ∃ x, l !! i = Some x ∧ p x = true.
Proof.
  revert i. induction l as [|y l IH]; intros i; [done|]. simpl.
  destruct (p y) eqn:Hy.
  - intros [= <-]. eauto.
  - destruct (findIndex p l) as [j|]; [|done]. intros [= <-].
    destruct (IH j eq_refl) as (x & ? & ?). eauto.
Qed.

Lemma findIndex_None {A} (p : A → bool) l x :
  findIndex p l = None → x ∈ l → p x = false.
Proof.
  induction l as [|y l IH]; [by intros _ ?%elem_of_nil|]. simpl.
  destruct (p y) eqn:Hy; [done|].
  destruct (findIndex p l); [done|]. intros _ [->|?]%elem_of_cons; auto.
Qed.

Lemma has_status_true h s r : has_status h s r = true ↔ status_of h r = Some s.
Proof.
  unfold has_status, status_of. destruct (h !! r) as [b|]; simpl; [|done].
  rewrite bool_decide_eq_true. naive_solver.
Qed.

Lemma has_status_ext h h' s r :
  status_of h r = status_of h' r → has_status h s r = has_status h' s r.
Proof.
  intros H. apply eq_true_iff_eq. by rewrite !has_status_true, H.
Qed.

Lemma forallb_ext_elem {A} (f g : A → bool) l :
  (∀ x, x ∈ l → f x = g x) → forallb f l = forallb g l.
Proof.
  induction l as [|x l IH]; [done|]. intros H. simpl.
  rewrite (H x) by left. rewrite IH; [done|]. intros; apply H; by right.
Qed.

Lemma existsb_ext_elem {A} (f g : A → bool) l :
  (∀ x, x ∈ l → f x = g x) → existsb f l = existsb g l.
Proof.
  induction l as [|x l IH]; [done|]. intros H. simpl.
  rewrite (H x) by left. rewrite IH; [done|]. intros; apply H; by right.
Qed.

Lemma overall_status_ext h h' bs :
  (∀ r, r ∈ bs → status_of h r = status_of h' r) →
  overall_status h bs = overall_status h' bs.
Proof.
  intros H. unfold overall_status.
  rewrite (forallb_ext_elem (has_status h completed) (has_status h' completed))
    by (intros; by apply has_status_ext, H).
  rewrite (existsb_ext_elem (has_status h triggered) (has_status h' triggered))
    by (intros; by apply has_status_ext, H).
  done.
Qed.

Lemma same_batch_id_refl h r : (r < length h)%nat → same_batch_id h r r = true.
Proof.
  intros [b Hb]%lookup_lt_is_Some. unfold same_batch_id. rewrite Hb.
  apply Nat.eqb_refl.
Qed.

Lemma same_batch_id_eq h r r' :
  NoDup (batch_id <$> h) → same_batch_id h r r' = true → r = r'.
Proof.
  intros Hnd. unfold same_batch_id.
  destruct (h !! r) as [b|] eqn:Hb; [|done].
  destruct (h !! r') as [b'|] eqn:Hb'; [|done].
  intros Heq%Nat.eqb_eq.
  eapply (NoDup_lookup _ _ _ (batch_id b) Hnd).
  - by rewrite list_lookup_fmap, Hb.
  - by rewrite list_lookup_fmap, Hb', Heq.
Qed.

Lemma refresh_absent h r (m : list (uuid * ingestion)) :
  r ∉ all_refs m → refresh h r <$> m = m.
Proof.
  induction m as [|kd m IH]; [done|]. unfold all_refs. csimpl.
  rewrite elem_of_app. intros Hr. rewrite IH by (unfold all_refs; tauto).
  unfold refresh. rewrite bool_decide_eq_false_2 by tauto. done.
Qed.

Lemma update_entries_refresh h r m :
  (r < length h)%nat →
  NoDup (batch_id <$> h) →
  NoDup (all_refs m) →
  update_entries h r m = refresh h r <$> m.
Proof.
  intros Hr Hids. induction m as [|[k d] m IH]; [done|].
  unfold all_refs. csimpl. intros (Hd & Hdisj & Hm)%NoDup_app.
  destruct (findIndex _ (batches d)) as [i|] eqn:Hi.
  - apply findIndex_Some in Hi as (r' & Hi & Hsame).
    apply same_batch_id_eq in Hsame as ->; [|done].
    assert (r ∈ batches d) as Hin by (by eapply list_elem_of_lookup_2).
    rewrite list_insert_id by done.
    rewrite refresh_absent by (by apply Hdisj).
    unfold refresh at 1. simpl. rewrite bool_decide_eq_true_2 by done. done.
  - assert (r ∉ batches d) as Hnin.
    { intros Hin. eapply findIndex_None in Hi; [|done].
      simpl in Hi. by rewrite same_batch_id_refl in Hi. }
    rewrite IH by done.
    unfold refresh at 2. simpl. rewrite bool_decide_eq_false_2 by done. done.
Qed.

Lemma refresh_keys h r (m : list (uuid * ingestion)) :
  fst <$> (refresh h r <$> m) = fst <$> m.
Proof.
  rewrite <- list_fmap_compose. apply list_fmap_ext. intros _ [k d] _.
  unfold refresh. simpl. by destruct (bool_decide _).
Qed.

Lemma refresh_refs h r (m : list (uuid * ingestion)) :
  all_refs (refresh h r <$> m) = all_refs m.
Proof.
  unfold all_refs. f_equal. rewrite <- list_fmap_compose.
  apply list_fmap_ext. intros _ [k d] _.
  unfold refresh. simpl. by destruct (bool_decide _).
Qed.

Lemma elem_of_refresh h r (m : list (uuid * ingestion)) k d' :
  (k, d') ∈ refresh h r <$> m →
  ∃ d, (k, d) ∈ m ∧ batches d' = batches d ∧ ingestion_id d' = ingestion_id d
       ∧ ingestion_status d' =
           (if bool_decide (r ∈ batches d) then overall_status h (batches d)
            else ingestion_status d).
Proof.
  intros ([k0 d] & Heq & Hin)%list_elem_of_fmap.
  unfold refresh in Heq. simpl in Heq.
  destruct (bool_decide (r ∈ batches d)) eqn:Hb; injection Heq as -> ->;
    exists d; simpl; by rewrite ?Hb.
Qed.

(** ** Invariants of the reachable states *)

(** Reduce the field projections of updated states, and nothing else. *)
Ltac fields :=
  cbn [ingestionStore processingQueue isProcessing heap activations next_uuid
       set_ingestionStore set_processingQueue set_isProcessing set_heap
       set_activations uuidv4 alloc updateIngestionStatus assign_status
       after_loop fst snd] in *.

Lemma status_of_valid h r s : status_of h r = Some s → (r < length h)%nat.
Proof.
  unfold status_of. destruct (h !! r) eqn:H; [|done].
  intros _. by eapply lookup_lt_Some.
Qed.

Lemma status_of_alter_ne s r r' (h : list batch) :
  r ≠ r' → status_of (alter (with_status s) r h) r' = status_of h r'.
Proof. intros. unfold status_of. by rewrite list_lookup_alter_ne. Qed.

Lemma status_of_alter_eq s r (h : list batch) :
  (r < length h)%nat → status_of (alter (with_status s) r h) r = Some s.
Proof.
  intros [b Hb]%lookup_lt_is_Some. unfold status_of.
  by rewrite list_lookup_alter_eq, Hb.
Qed.

Lemma batch_id_alter_status s r (h : list batch) :
  batch_id <$> alter (with_status s) r h = batch_id <$> h.
Proof.
  rewrite (list_fmap_alter batch_id (with_status s) id).
  - by apply list_alter_id.
  - by apply Forall_forall.
Qed.

Lemma data_inv_set_isProcessing b st : data_inv st → data_inv (set_isProcessing b st).
Proof. by intros []. Qed.

Lemma data_inv_set_activations a st : data_inv st → data_inv (set_activations a st).
Proof. by intros []. Qed.

Lemma data_inv_set_processingQueue q st :
  data_inv st → NoDup q → (∀ r, r ∈ q → r ∈ processingQueue st) →
  data_inv (set_processingQueue q st).
Proof. intros [] Hq Hsub. split; fields; auto. Qed.

(** [batch.status = s; updateIngestionStatus(batch)] on a batch that is not
    queued. *)
Lemma data_inv_publish r s st :
  data_inv st → (r < length (heap st))%nat → r ∉ processingQueue st →
  data_inv (updateIngestionStatus r (assign_status r s st)).
Proof.
  intros [] Hr Hq.
  unfold updateIngestionStatus, assign_status. fields.
  rewrite update_entries_refresh;
    [| by rewrite length_alter | by rewrite batch_id_alter_status | done].
  split; fields.
  - intros r' Hr'. rewrite status_of_alter_ne by (by intros ->). auto.
  - done.
  - by rewrite batch_id_alter_status.
  - by rewrite batch_id_alter_status.
  - by rewrite refresh_keys.
  - rewrite refresh_refs, length_alter. auto.
  - by rewrite refresh_refs.
  - intros k d' (d & Hin & Hbs & _ & Hst)%elem_of_refresh Hne.
    rewrite Hst, Hbs. case_bool_decide as Hmem; [done|].
    rewrite (di_status0 k d) by congruence.
    apply overall_status_ext. intros r' Hr'.
    rewrite status_of_alter_ne; [done|]. by intros ->.
  - intros k d' (d & Hin & Hbs & _ & Hst)%elem_of_refresh He.
    rewrite Hst. rewrite He in Hbs. rewrite <- Hbs.
    rewrite bool_decide_eq_false_2 by (by intros ?%elem_of_nil).
    eapply di_empty0; eauto.
Qed.

Lemma data_inv_loop_head st : data_inv st → data_inv (loop_head st).1.1.
Proof.
  intros Hinv. unfold loop_head.
  destruct (processingQueue st) as [|b rest] eqn:Hq.
  { by apply data_inv_set_isProcessing. }
  cbn [fst].
  pose proof (di_queue_nodup _ Hinv) as Hnd. rewrite Hq in Hnd.
  apply NoDup_cons in Hnd as [Hb Hrest].
  apply data_inv_publish.
  - apply data_inv_set_processingQueue; [done..|].
    intros r Hr. rewrite Hq. by right.
  - fields. eapply status_of_valid, (di_queue_fresh _ Hinv). rewrite Hq. by left.
  - done.
Qed.

Lemma data_inv_processBatches st : data_inv st → data_inv (processBatches st).1.
Proof.
  intros Hinv. unfold processBatches.
  pose proof (data_inv_loop_head (set_isProcessing true st)
                (data_inv_set_isProcessing _ _ Hinv)) as H.
  destruct (loop_head _) as [[st1 [a|]] acts]; cbn [fst] in *; [|done].
  by apply data_inv_set_activations.
Qed.

Lemma inflight_not_queued st r :
  data_inv st → status_of (heap st) r = Some triggered → r ∉ processingQueue st.
Proof.
  intros Hinv Hr Hq. apply (di_queue_fresh _ Hinv) in Hq. congruence.
Qed.

Lemma data_inv_fetches_settled n st :
  data_inv st → control_inv st → data_inv (fetches_settled n st).1.
Proof.
  intros Hinv Hc. unfold fetches_settled.
  destruct (activations st !! n) as [[b|]|] eqn:Hn; [|done..].
  cbn [fst]. apply data_inv_set_activations.
  assert (status_of (heap st) b = Some triggered) as Hb.
  { apply (ci_inflight _ Hc). by eapply list_elem_of_lookup_2. }
  apply data_inv_publish; [done| |].
  - by eapply status_of_valid.
  - by apply inflight_not_queued.
Qed.

Lemma data_inv_cooldown_elapsed n st :
  data_inv st → data_inv (cooldown_elapsed n st).1.
Proof.
  intros Hinv. unfold cooldown_elapsed.
  destruct (activations st !! n) as [[b|]|] eqn:Hn; [done| |done].
  pose proof (data_inv_loop_head st Hinv) as H.
  destruct (loop_head st) as [[st1 [a|]] acts]; cbn [fst] in *;
    by apply data_inv_set_activations.
Qed.

(** *** The sort permutes *)

Section SortPermutation.
Context {A : Type} (comparefn : A → A → option number).

Lemma sort_insert_perm x l r :
  sort_insert comparefn x l = Some r → r ≡ₚ x :: l.
Proof.
  revert r. induction l as [|y l IH]; intros r; simpl.
  - by intros [= <-].
  - destruct (sorts_after comparefn x y) as [[]|]; simpl; [|by intros [= <-]|done].
    destruct (sort_insert comparefn x l) as [r'|]; simpl; [|done].
    intros [= <-]. rewrite (IH r' eq_refl). apply Permutation_swap.
Qed.

Lemma Array_sort_perm l q : Array_sort comparefn l = Some q → q ≡ₚ l.
Proof.
  revert q. induction l as [|x l IH]; intros q; simpl.
  - by intros [= <-].
  - destruct (Array_sort comparefn l) as [s|]; simpl; [|done].
    intros ->%sort_insert_perm. by rewrite (IH s eq_refl).
Qed.
End SortPermutation.

(** *** The handler's loop and the new store entry *)

Lemma status_of_app_l (h h' : list batch) r :
  (r < length h)%nat → status_of (h ++ h') r = status_of h r.
Proof. intros. unfold status_of. by rewrite lookup_app_l. Qed.

Lemma status_of_created (h : list batch) l p now u0 i n m k :
  (k < m)%nat →
  status_of (h ++ (kth_batch l p now u0 i n <$> seq 0 m)) (length h + k)
  = Some yet_to_start.
Proof.
  intros Hk. unfold status_of.
  rewrite lookup_app_r by lia.
  replace (length h + k - length h)%nat with k by lia.
  by rewrite list_lookup_fmap, lookup_seq_lt.
Qed.

Lemma elem_of_all_refs (m : list (uuid * ingestion)) k d r :
  (k, d) ∈ m → r ∈ batches d → r ∈ all_refs m.
Proof.
  intros Hin Hr. unfold all_refs.
  induction m as [|kd m IH]; [by apply elem_of_nil in Hin|].
  csimpl. apply elem_of_app.
  apply elem_of_cons in Hin as [<-|Hin]; [by left|right; auto].
Qed.

Lemma data_inv_after_loop l p now i n m st :
  data_inv st → data_inv (after_loop l p now i n m (uuidv4 st).2).
Proof.
  intros Hinv. destruct Hinv. split; fields.
  - intros r [Hr|Hr]%elem_of_app.
    + rewrite status_of_app_l; eauto using status_of_valid.
    + apply elem_of_seq in Hr.
      replace r with (length (heap st) + (r - length (heap st)))%nat by lia.
      apply status_of_created. lia.
  - apply NoDup_app. split; [done|]. split; [|apply NoDup_seq].
    intros r Hr Hr'%elem_of_seq.
    apply di_queue_fresh0, status_of_valid in Hr. lia.
  - rewrite fmap_app, <- list_fmap_compose. apply NoDup_app.
    split; [done|]. split.
    + intros j Hj%di_batch_bound0 (k & -> & _)%list_elem_of_fmap. simpl in Hj. lia.
    + apply NoDup_fmap_2; [|apply NoDup_seq]. intros j k. simpl. lia.
  - rewrite fmap_app, <- list_fmap_compose.
    intros j [Hj%di_batch_bound0|(k & -> & Hk%elem_of_seq)%list_elem_of_fmap]%elem_of_app;
      simpl; lia.
  - intros k Hk%di_store_bound0. lia.
  - intros r Hr%di_store_refs0. rewrite length_app. lia.
  - done.
  - intros k d Hin Hne. rewrite (di_status0 k d) by done.
    apply overall_status_ext. intros r Hr. symmetry. apply status_of_app_l.
    eauto using elem_of_all_refs.
  - done.
Qed.

Lemma Map_set_fresh {V} key (v : V) m :
  key ∉ fst <$> m → Map_set key v m = m ++ [(key, v)].
Proof.
  induction m as [|[k w] m IH]; [done|]. csimpl.
  rewrite not_elem_of_cons. intros [Hk Hm].
  destruct (Nat.eqb_spec k key) as [->|_]; [done|]. by rewrite IH.
Qed.

Lemma Map_get_set_eq {V} key (v : V) m : Map_get key (Map_set key v m) = Some v.
Proof.
  induction m as [|[k w] m IH]; simpl; [by rewrite Nat.eqb_refl|].
  destruct (Nat.eqb_spec k key) as [->|Hne]; simpl.
  - by rewrite Nat.eqb_refl.
  - by destruct (Nat.eqb_spec k key).
Qed.

Lemma Map_get_set_ne {V} key key' (v : V) m :
  key ≠ key' → Map_get key' (Map_set key v m) = Map_get key' m.
Proof.
  intros Hne. induction m as [|[k w] m IH]; simpl.
  - by destruct (Nat.eqb_spec key key').
  - destruct (Nat.eqb_spec k key) as [->|Hk]; simpl.
    + by destruct (Nat.eqb_spec key key').
    + by rewrite IH.
Qed.

Lemma all_refs_snoc m k d : all_refs (m ++ [(k, d)]) = all_refs m ++ batches d.
Proof.
  unfold all_refs. rewrite fmap_app, concat_app. simpl. by rewrite app_nil_r.
Qed.

Lemma overall_status_fresh h bs :
  bs ≠ [] → (∀ r, r ∈ bs → status_of h r = Some yet_to_start) →
  overall_status h bs = yet_to_start.
Proof.
  intros Hne Hall. unfold overall_status.
  assert (∀ s, s ≠ yet_to_start → ∀ r, r ∈ bs → has_status h s r = false) as Hno.
  { intros s Hs r Hr. apply not_true_is_false. rewrite has_status_true.
    rewrite (Hall r Hr). congruence. }
  destruct bs as [|r bs]; [done|]. simpl.
  rewrite (Hno completed) by (done || left). simpl.
  rewrite (Hno triggered) by (done || left). simpl.
  rewrite (existsb_ext_elem _ (λ _, false)).
  - clear. by induction bs.
  - intros x Hx. apply (Hno triggered); [done|by right].
Qed.

Lemma data_inv_store_new st id bs :
  data_inv st →
  (∀ k, k ∈ fst <$> ingestionStore st → (k < id)%nat) →
  (id < next_uuid st)%nat →
  NoDup bs →
  (∀ r, r ∈ bs → (r ∉ all_refs (ingestionStore st))
                 ∧ status_of (heap st) r = Some yet_to_start) →
  data_inv (set_ingestionStore
              (Map_set id (stored_record id bs) (ingestionStore st)) st).
Proof.
  intros [] Hfresh Hid Hnd Hbs.
  rewrite Map_set_fresh by (intros ?%Hfresh; lia).
  split; fields; try done.
  - rewrite fmap_app. intros k [?|Hk]%elem_of_app; [auto|].
    apply list_elem_of_singleton in Hk as ->. done.
  - rewrite all_refs_snoc. intros r [?|Hr]%elem_of_app; [auto|].
    apply Hbs in Hr as [_ Hr]. by eapply status_of_valid.
  - rewrite all_refs_snoc. apply NoDup_app. split; [done|]. split; [|done].
    intros r Hr Hr'. by apply Hbs in Hr' as [? _].
  - intros k d [?|Hk]%elem_of_app Hne; [eauto|].
    apply list_elem_of_singleton in Hk as [= -> ->]. simpl in *.
    symmetry. apply overall_status_fresh; [done|]. intros r Hr. by apply Hbs.
  - intros k d [?|Hk]%elem_of_app He; [eauto|].
    by apply list_elem_of_singleton in Hk as [= -> ->].
Qed.

Lemma ingest_cases l p now st :
  ingest (Some (JArr l)) p now st =
    match Array_sort (compare_refs (heap (loop_done l p now st)))
                     (processingQueue (loop_done l p now st)) with
    | None => (loop_done l p now st, Threw, [Respond 500])
    | Some q =>
        let '(st5, acts) :=
          if isProcessing st then (stored l p now st q, [])
          else processBatches (stored l p now st q) in
        (st5, Accepted (next_uuid st), acts ++ [Respond 200])
    end.
Proof. apply ingest_array. Qed.

Lemma data_inv_loop_done l p now st : data_inv st → data_inv (loop_done l p now st).
Proof. apply data_inv_after_loop. Qed.

Lemma data_inv_stored l p now st q :
  data_inv st →
  Array_sort (compare_refs (heap (loop_done l p now st)))
             (processingQueue (loop_done l p now st)) = Some q →
  data_inv (stored l p now st q).
Proof.
  intros Hinv Hsort%Array_sort_perm.
  pose proof (data_inv_loop_done l p now st Hinv) as H2.
  apply (data_inv_store_new (set_processingQueue q (loop_done l p now st))).
  - apply data_inv_set_processingQueue; [done| |].
    + rewrite Hsort. apply (di_queue_nodup _ H2).
    + intros r. by rewrite Hsort.
  - apply (di_store_bound _ Hinv).
  - unfold loop_done. fields. lia.
  - apply NoDup_seq.
  - intros r Hr%elem_of_seq. split.
    + intros Hin%(di_store_refs _ Hinv). lia.
    + unfold loop_done. fields.
      replace r with (length (heap st) + (r - length (heap st)))%nat by lia.
      apply status_of_created. lia.
Qed.

Lemma data_inv_ingest ids p now st :
  data_inv st → data_inv (ingest ids p now st).1.1.
Proof.
  intros Hinv.
  destruct (array_or_not ids) as [[l ->]|Hno]; [|by rewrite ingest_not_array].
  rewrite ingest_cases.
  destruct (Array_sort _ _) as [q|] eqn:Hsort; [|by apply data_inv_loop_done].
  pose proof (data_inv_stored l p now st q Hinv Hsort) as H4.
  destruct (isProcessing st); [done|].
  pose proof (data_inv_processBatches _ H4) as H5.
  by destruct (processBatches _).
Qed.

(** *** Control *)

Lemma loop_head_control st :
  data_inv st → none_in_flight st →
  match loop_head st with
  | (st', None, acts) =>
      none_in_flight st' ∧ isProcessing st' = false
      ∧ activations st' = activations st ∧ acts = []
      ∧ processingQueue st = []
  | (st', Some a, acts) =>
      ∃ b, a = AwaitFetch b
           ∧ (∀ r, status_of (heap st') r = Some triggered ↔ r = b)
           ∧ isProcessing st' = isProcessing st
           ∧ activations st' = activations st
           ∧ processingQueue st = b :: processingQueue st'
  end.
Proof.
  intros Hinv Hnone. unfold loop_head.
  destruct (processingQueue st) as [|b rest] eqn:Hq; [done|].
  exists b. fields. repeat split; try done.
  - intros Hr. destruct (decide (r = b)) as [|Hne]; [done|].
    rewrite status_of_alter_ne in Hr by done. by apply Hnone in Hr.
  - intros ->. apply status_of_alter_eq.
    eapply status_of_valid, (di_queue_fresh _ Hinv). rewrite Hq. by left.
Qed.

Lemma control_inv_processBatches st :
  data_inv st → control_inv st → isProcessing st = false →
  control_inv (processBatches st).1.
Proof.
  intros Hinv Hc Hflag.
  assert (activations st = []) as Hact.
  { destruct (activations st) eqn:Ha; [done|].
    assert (isProcessing st = true) by (apply (ci_flag _ Hc); by rewrite Ha).
    congruence. }
  assert (none_in_flight st) as Hnone.
  { intros r Hr%(ci_inflight _ Hc). rewrite Hact in Hr. by apply elem_of_nil in Hr. }
  unfold processBatches.
  pose proof (loop_head_control (set_isProcessing true st)
                (data_inv_set_isProcessing _ _ Hinv) Hnone) as H.
  destruct (loop_head _) as [[st1 [a|]] acts]; cbn [fst].
  - destruct H as (b & -> & Htrig & Hf & Ha & _). fields.
    rewrite Ha, Hact. cbn [app]. split; fields.
    + simpl. lia.
    + by rewrite Hf.
    + intros r. rewrite Htrig, list_elem_of_singleton.
      split; [by intros ->|by intros [= ->]].
  - destruct H as (Hn1 & Hf & Ha & _). fields. split.
    + rewrite Ha, Hact. simpl. lia.
    + rewrite Hf, Ha, Hact. done.
    + intros r. rewrite Ha, Hact. split; [by intros ?%Hn1|by intros ?%elem_of_nil].
Qed.

Lemma control_inv_fetches_settled n st :
  data_inv st → control_inv st → control_inv (fetches_settled n st).1.
Proof.
  intros Hinv Hc. unfold fetches_settled.
  destruct (activations st !! n) as [[b|]|] eqn:Hn; [|done..].
  pose proof (ci_single _ Hc) as Hlen.
  destruct (activations st) as [|a [|]] eqn:Ha; [done| |simpl in Hlen; lia].
  destruct n as [|n]; [|done]. injection Hn as ->.
  assert (status_of (heap st) b = Some triggered) as Hb.
  { apply (ci_inflight _ Hc). rewrite Ha. by left. }
  fields. rewrite Ha. split; fields.
  - simpl. lia.
  - rewrite (ci_flag _ Hc), Ha. done.
  - intros r. split.
    + intros Hr. destruct (decide (b = r)) as [<-|Hne].
      * rewrite status_of_alter_eq in Hr by (by eapply status_of_valid). done.
      * rewrite status_of_alter_ne in Hr by done.
        apply (ci_inflight _ Hc) in Hr. rewrite Ha in Hr.
        apply list_elem_of_singleton in Hr. congruence.
    + simpl. by intros [=]%list_elem_of_singleton.
Qed.

Lemma control_inv_cooldown_elapsed n st :
  data_inv st → control_inv st → control_inv (cooldown_elapsed n st).1.
Proof.
  intros Hinv Hc. unfold cooldown_elapsed.
  destruct (activations st !! n) as [[b|]|] eqn:Hn; [done| |done].
  pose proof (ci_single _ Hc) as Hlen.
  destruct (activations st) as [|a [|]] eqn:Hact; [done| |simpl in Hlen; lia].
  destruct n as [|n]; [|done]. injection Hn as ->.
  assert (none_in_flight st) as Hnone.
  { intros r Hr%(ci_inflight _ Hc). rewrite Hact in Hr.
    by apply list_elem_of_singleton in Hr. }
  pose proof (loop_head_control st Hinv Hnone) as H.
  destruct (loop_head st) as [[st1 [a|]] acts]; cbn [fst].
  - destruct H as (b & -> & Htrig & Hf & Ha & _). split; fields.
    + rewrite Ha, Hact. simpl. lia.
    + rewrite Hf, (ci_flag _ Hc), Ha, Hact. done.
    + intros r. rewrite Htrig, Ha, Hact. simpl.
      rewrite list_elem_of_singleton.
      split; [by intros ->|by intros [= ->]].
  - destruct H as (Hn1 & Hf & Ha & _). split; fields.
    + rewrite Ha, Hact. simpl. lia.
    + rewrite Hf, Ha, Hact. done.
    + intros r. rewrite Ha, Hact. simpl.
      split; [by intros ?%Hn1|by intros ?%elem_of_nil].
Qed.

Lemma status_of_loop_done l p now st r s :
  s ≠ yet_to_start →
  status_of (heap (loop_done l p now st)) r = Some s ↔ status_of (heap st) r = Some s.
Proof.
  intros Hs. unfold loop_done. fields.
  destruct (decide (r < length (heap st))%nat) as [Hlt|Hge].
  { by rewrite status_of_app_l. }
  split.
  - intros Hr. pose proof (status_of_valid _ _ _ Hr) as Hv.
    rewrite length_app, length_fmap, length_seq in Hv.
    replace r with (length (heap st) + (r - length (heap st)))%nat in Hr by lia.
    rewrite status_of_created in Hr by lia. congruence.
  - intros Hr%status_of_valid. lia.
Qed.

Lemma control_inv_loop_done l p now st :
  control_inv st → control_inv (loop_done l p now st).
Proof.
  intros [Hs Hf Hi]. split.
  - done.
  - done.
  - intros r. rewrite status_of_loop_done by done. apply Hi.
Qed.

Lemma control_inv_stored l p now st q :
  control_inv st → control_inv (stored l p now st q).
Proof.
  intros Hc%(control_inv_loop_done l p now). destruct Hc as [Hs Hf Hi].
  split; done.
Qed.

Lemma control_inv_ingest ids p now st :
  data_inv st → control_inv st → control_inv (ingest ids p now st).1.1.
Proof.
  intros Hinv Hc.
  destruct (array_or_not ids) as [[l ->]|Hno]; [|by rewrite ingest_not_array].
  rewrite ingest_cases.
  destruct (Array_sort _ _) as [q|] eqn:Hsort; [|by apply control_inv_loop_done].
  pose proof (data_inv_stored l p now st q Hinv Hsort) as H4.
  pose proof (control_inv_stored l p now st q Hc) as Hc4.
  destruct (isProcessing st) eqn:Hflag; [done|].
  pose proof (control_inv_processBatches _ H4 Hc4 Hflag) as H5.
  by destruct (processBatches _).
Qed.

(** *** Every reachable state satisfies both invariants *)

Lemma run_snoc evs e : run (evs ++ [e]) = (step (run evs) e).1.
Proof. unfold run. by rewrite fold_left_app. Qed.

Lemma step_inv st e :
  data_inv st → control_inv st →
  data_inv (step st e).1 ∧ control_inv (step st e).1.
Proof.
  intros Hd Hc. destruct e as [ids p now|k|n|n]; simpl.
  - pose proof (data_inv_ingest ids p now st Hd).
    pose proof (control_inv_ingest ids p now st Hd Hc).
    by destruct (ingest ids p now st) as [[st' o] acts].
  - done.
  - auto using data_inv_fetches_settled, control_inv_fetches_settled.
  - auto using data_inv_cooldown_elapsed, control_inv_cooldown_elapsed.
Qed.

Lemma initial_inv : data_inv initial ∧ control_inv initial.
Proof.
  split; split; cbn; try done; try (by intros ? ?%elem_of_nil);
    try (by intros ? ? ?%elem_of_nil); try apply NoDup_nil_2.
  - lia.
  - intros r. split; [done|by intros ?%elem_of_nil].
Qed.

Lemma run_inv evs : data_inv (run evs) ∧ control_inv (run evs).
Proof.
  induction evs as [|e evs IH] using rev_ind; [apply initial_inv|].
  rewrite run_snoc. destruct IH. by apply step_inv.
Qed.

(** ** The batches of an accepted request *)

Lemma Map_get_refresh h r (m : list (uuid * ingestion)) id :
  Map_get id (refresh h r <$> m) = (λ d, (refresh h r (id, d)).2) <$> Map_get id m.
Proof.
  induction m as [|[k d] m IH]; [done|]. csimpl.
  assert ((refresh h r (k, d)).1 = k) as Hk.
  { unfold refresh. simpl. by destruct (bool_decide _). }
  destruct (refresh h r (k, d)) as [k' d'] eqn:Hr. simpl in Hk. subst k'.
  destruct (Nat.eqb_spec k id) as [->|Hne]; [|done].
  simpl. by rewrite Hr.
Qed.

Lemma loop_head_keeps_batches id d st :
  data_inv st → Map_get id (ingestionStore st) = Some d →
  ∃ d', Map_get id (ingestionStore (loop_head st).1.1) = Some d'
        ∧ batches d' = batches d.
Proof.
  intros Hd Hget. unfold loop_head.
  destruct (processingQueue st) as [|b rest] eqn:Hq; [by exists d|].
  fields. rewrite update_entries_refresh.
  - rewrite Map_get_refresh, Hget. simpl. eexists. split; [done|].
    unfold refresh. simpl. by destruct (bool_decide _).
  - rewrite length_alter. eapply status_of_valid, (di_queue_fresh _ Hd).
    rewrite Hq. by left.
  - rewrite batch_id_alter_status. apply (di_batch_ids _ Hd).
  - apply (di_store_nodup _ Hd).
Qed.

Lemma accepted_batches l p now st id :
  data_inv st → (ingest (Some (JArr l)) p now st).1.2 = Accepted id →
  ∃ d, Map_get id (ingestionStore (ingest (Some (JArr l)) p now st).1.1) = Some d
       ∧ batches d = new_refs l st.
Proof.
  intros Hd. rewrite ingest_cases.
  destruct (Array_sort _ _) as [q|] eqn:Hsort; [|done].
  pose proof (data_inv_stored l p now st q Hd Hsort) as H4.
  assert (Map_get (next_uuid st) (ingestionStore (stored l p now st q))
          = Some (stored_record (next_uuid st) (new_refs l st))) as Hget.
  { unfold stored. fields. apply Map_get_set_eq. }
  destruct (isProcessing st).
  { cbn. intros [= <-]. eauto. }
  unfold processBatches.
  pose proof (loop_head_keeps_batches _ _ (set_isProcessing true (stored l p now st q))
                (data_inv_set_isProcessing _ _ H4) Hget) as (d' & Hget' & Hbs).
  destruct (loop_head _) as [[st1 [a|]] acts]; cbn; intros [= <-]; eauto.
Qed.

(** C3.  Whatever the state and the priority, a request with [N]
    identifiers makes the handler create exactly [ceil (N / 3)] batch
    objects (the number [m] with [N <= 3 m < N + 3]); each holds at most three
    identifiers, the [k]-th one holds the contiguous slice [3k .. 3k+3) of the
    input, and the concatenation of their [ids] in creation order is the
    input list.  When the request is made in a reachable state and accepted,
    the [batches] array of the stored ingestion lists exactly these batch
    objects, in creation order. *)
Theorem C3_splitter_groups_of_three (l : list json) (p : option json)
    (now : nat → Z) (st : state) :
  let groups := ids <$> created_by st (ingest (Some (JArr l)) p now st).1.1 in
  length groups = batch_count (length l)
  ∧ (length l ≤ 3 * length groups)%nat ∧ (3 * length groups < length l + 3)%nat
  ∧ Forall (λ g, (length g ≤ 3)%nat) groups
  ∧ (∀ k g, groups !! k = Some g → g = slice l (3 * k) (3 * k + 3))
  ∧ concat groups = l
  ∧ (∀ k r, new_refs l st !! k = Some r →
            heap (ingest (Some (JArr l)) p now st).1.1 !! r
            = created_by st (ingest (Some (JArr l)) p now st).1.1 !! k)
  ∧ (∀ evs id, (ingest (Some (JArr l)) p now (run evs)).1.2 = Accepted id →
       ∃ d, Map_get id (ingestionStore (ingest (Some (JArr l)) p now (run evs)).1.1)
            = Some d
            ∧ batches d = new_refs l (run evs)).
Proof.
  cbn zeta.
  pose proof (batch_count_bounds (length l)) as [Hlo Hhi].
  rewrite created_by_ingest_ids, length_fmap, length_seq.
  split; [done|]. split; [done|]. split; [done|].
  split; [|split; [|split; [|split]]].
  - apply Forall_fmap, Forall_forall. intros k _. simpl. unfold slice.
    rewrite length_take. lia.
  - intros k g Hk. rewrite list_lookup_fmap in Hk.
    destruct (seq 0 (batch_count (length l)) !! k) as [j|] eqn:Hj; [|done].
    apply lookup_seq in Hj as [-> _]. simpl in Hk. by injection Hk as <-.
  - rewrite concat_slices. by apply take_ge.
  - intros k r [-> _]%lookup_seq. unfold created_by. by rewrite lookup_drop.
  - intros evs id. apply accepted_batches, run_inv.
Qed.

(** ** Aggregate status *)

Lemma forallb_has_status h s bs :
  forallb (has_status h s) bs = true ↔ ∀ r, r ∈ bs → status_of h r = Some s.
Proof.
  rewrite forallb_forall. setoid_rewrite <- list_elem_of_In.
  by setoid_rewrite has_status_true.
Qed.

Lemma existsb_has_status h s bs :
  existsb (has_status h s) bs = true ↔ ∃ r, r ∈ bs ∧ status_of h r = Some s.
Proof.
  rewrite existsb_exists. setoid_rewrite <- list_elem_of_In.
  by setoid_rewrite has_status_true.
Qed.

Lemma overall_status_spec h bs : aggregate_spec h bs (overall_status h bs).
Proof.
  unfold aggregate_spec, overall_status.
  destruct (forallb _ bs) eqn:Hall.
  - rewrite forallb_has_status in Hall. by repeat split.
  - assert (¬ ∀ r, r ∈ bs → status_of h r = Some completed) as Hn.
    { rewrite <- forallb_has_status. congruence. }
    destruct (existsb _ bs) eqn:Hany.
    + rewrite existsb_has_status in Hany. by repeat split.
    + assert (¬ ∃ r, r ∈ bs ∧ status_of h r = Some triggered) as Hn'.
      { rewrite <- existsb_has_status. congruence. }
      by repeat split.
Qed.

(** C2, as stated, fails: an ingestion made from an empty [ids] array has no
    batch, so all of its batches are completed, and yet its status is
    [yet_to_start], also after later status updates. *)
Lemma C2_empty_ingestion_not_completed :
  ingestionStore (run c2_events)
  = [(0%nat, Ingestion 0 yet_to_start []); (1%nat, Ingestion 1 completed [0%nat])]
  ∧ ¬ status_consistent (run c2_events).
Proof.
  assert (ingestionStore (run c2_events)
          = [(0%nat, Ingestion 0 yet_to_start []);
             (1%nat, Ingestion 1 completed [0%nat])]) as Hstore by (by vm_compute).
  split; [done|].
  intros H. destruct (H 0%nat (Ingestion 0 yet_to_start [])) as [Hall _].
  { rewrite Hstore. by left. }
  discriminate Hall. by intros r ?%elem_of_nil.
Qed.

(** C2, amended.  In every reachable state, hence after every status update
    made through [updateIngestionStatus], every stored ingestion that has at
    least one batch carries the status of the formula. *)
Theorem C2_status_of_nonempty_ingestion (evs : list event) (k : uuid) (d : ingestion) :
  (k, d) ∈ ingestionStore (run evs) → batches d ≠ [] →
  aggregate_spec (heap (run evs)) (batches d) (ingestion_status d).
Proof.
  intros Hin Hne. destruct (run_inv evs) as [Hd _].
  rewrite (di_status _ Hd k d Hin Hne). apply overall_status_spec.
Qed.

Lemma C2_status_of_nonempty_ingestion_witness :
  aggregate_spec (heap (run c2_events)) [0%nat] completed.
Proof.
  apply (C2_status_of_nonempty_ingestion c2_events 1%nat (Ingestion 1 completed [0%nat])).
  - replace (ingestionStore (run c2_events))
      with [(0%nat, Ingestion 0 yet_to_start []);
            (1%nat, Ingestion 1 completed [0%nat])] by (by vm_compute).
    right. left.
  - discriminate.
Defined.

(** ** Batch status only advances *)

Lemma heap_advance_refl h : heap_advance h h.
Proof. intros r b Hb. exists b. repeat split; [done|by left]. Qed.

Lemma heap_advance_alter h r s s' :
  status_of h r = Some s → advance s s' →
  heap_advance h (alter (with_status s') r h).
Proof.
  intros Hs Hadv r' b Hb. destruct (decide (r = r')) as [<-|Hne].
  - exists (with_status s' b). rewrite list_lookup_alter_eq, Hb.
    repeat split. unfold status_of in Hs. rewrite Hb in Hs.
    injection Hs as <-. done.
  - exists b. rewrite list_lookup_alter_ne by done. repeat split; [done|by left].
Qed.

Lemma loop_head_advance st :
  data_inv st → heap_advance (heap st) (heap (loop_head st).1.1).
Proof.
  intros Hinv. unfold loop_head.
  destruct (processingQueue st) as [|b rest] eqn:Hq; [apply heap_advance_refl|].
  fields. apply heap_advance_alter with yet_to_start.
  - apply (di_queue_fresh _ Hinv). rewrite Hq. by left.
  - right. by left.
Qed.

Lemma processBatches_advance st :
  data_inv st → heap_advance (heap st) (heap (processBatches st).1).
Proof.
  intros Hinv. unfold processBatches.
  pose proof (loop_head_advance (set_isProcessing true st)
                (data_inv_set_isProcessing _ _ Hinv)) as H.
  by destruct (loop_head _) as [[st1 [a|]] acts].
Qed.

Lemma step_advance st e :
  data_inv st → control_inv st → heap_advance (heap st) (heap (step st e).1).
Proof.
  intros Hd Hc. destruct e as [ids p now|k|n|n]; simpl.
  - destruct (array_or_not ids) as [[l ->]|Hno];
      [|rewrite ingest_not_array by done; apply heap_advance_refl].
    rewrite ingest_cases.
    assert (∀ r b, heap st !! r = Some b → heap (loop_done l p now st) !! r = Some b)
      as Hext.
    { intros r b Hb. unfold loop_done. fields.
      rewrite lookup_app_l; [done|]. by eapply lookup_lt_Some. }
    destruct (Array_sort _ _) as [q|] eqn:Hsort.
    + pose proof (data_inv_stored l p now st q Hd Hsort) as H4.
      destruct (isProcessing st).
      * intros r b Hb%Hext. exists b. repeat split; [done|by left].
      * pose proof (processBatches_advance _ H4) as H5.
        destruct (processBatches _) as [st5 acts]. fields.
        intros r b Hb%Hext. by apply H5.
    + intros r b Hb%Hext. exists b. repeat split; [done|by left].
  - apply heap_advance_refl.
  - unfold fetches_settled.
    destruct (activations st !! n) as [[b|]|] eqn:Hn; try apply heap_advance_refl.
    fields. apply heap_advance_alter with triggered.
    + apply (ci_inflight _ Hc). by eapply list_elem_of_lookup_2.
    + right. by right.
  - unfold cooldown_elapsed.
    destruct (activations st !! n) as [[b|]|] eqn:Hn; try apply heap_advance_refl.
    pose proof (loop_head_advance st Hd) as H.
    by destruct (loop_head st) as [[st1 [a|]] acts].
Qed.

(** *** [triggered] is published before the fetches start *)


Lemma publish_before_fetch_no_fetch tr :
  (∀ b id, Fetch b id ∉ tr) → publish_before_fetch tr.
Proof. intros H i b id Hi%list_elem_of_lookup_2. by apply H in Hi. Qed.




Lemma overall_status_triggered h bs r :
  r ∈ bs → status_of h r = Some triggered → overall_status h bs = triggered.
Proof.
  intros Hr Hs. pose proof (overall_status_spec h bs) as (_ & H & _).
  apply H; [|by exists r].
  intros Hall. rewrite (Hall r Hr) in Hs. done.
Qed.

(** ** One loop, one batch in flight *)

Lemma loop_head_shift st b :
  Shift b ∈ (loop_head st).2 → ∃ rest, processingQueue st = b :: rest.
Proof.
  unfold loop_head. destruct (processingQueue st) as [|b' rest]; cbn [snd].
  - by intros ?%elem_of_nil.
  - intros [[= ->]|[[=]|Hin]%elem_of_cons]%elem_of_cons; [by exists rest|].
    by apply list_elem_of_fmap in Hin as (? & [=] & _).
Qed.

Lemma fetches_settled_no_shift n st b : Shift b ∉ (fetches_settled n st).2.
Proof.
  unfold fetches_settled.
  destruct (activations st !! n) as [[r|]|]; cbn [snd];
    try (by intros ?%elem_of_nil).
  intros [[=]|[[=]|?%elem_of_nil]%elem_of_cons]%elem_of_cons. done.
Qed.

Lemma step_ingest ids p now st :
  step st (PostIngest ids p now)
  = ((ingest ids p now st).1.1, (ingest ids p now st).2).
Proof. simpl. by destruct (ingest ids p now st) as [[st' o] acts]. Qed.

Lemma busy_ingest_keeps_control l p now st :
  isProcessing st = true →
  activations (ingest (Some (JArr l)) p now st).1.1 = activations st
  ∧ isProcessing (ingest (Some (JArr l)) p now st).1.1 = true
  ∧ processingQueue (ingest (Some (JArr l)) p now st).1.1
      ≡ₚ processingQueue st ++ new_refs l st
  ∧ ∀ b, Shift b ∉ (ingest (Some (JArr l)) p now st).2.
Proof.
  intros Hflag. rewrite ingest_cases.
  destruct (Array_sort _ _) as [q|] eqn:Hsort.
  - rewrite Hflag. cbn [fst snd]. apply Array_sort_perm in Hsort.
    repeat split; try done.
    intros b [[=]|?%elem_of_nil]%elem_of_cons. done.
  - cbn [fst snd]. repeat split; try done.
    intros b [[=]|?%elem_of_nil]%elem_of_cons. done.
Qed.

Lemma step_shift_idle st e b :
  data_inv st → control_inv st → Shift b ∈ (step st e).2 → none_in_flight st.
Proof.
  intros Hd Hc Hshift r Hr. apply (ci_inflight _ Hc) in Hr.
  pose proof (ci_single _ Hc) as Hlen.
  destruct e as [ids p now|k|n|n];
    [rewrite step_ingest in Hshift|..]; cbn [step snd] in Hshift.
  - destruct (array_or_not ids) as [[l ->]|Hno].
    + destruct (isProcessing st) eqn:Hflag.
      * by apply (busy_ingest_keeps_control l p now st Hflag) in Hshift.
      * assert (activations st = []) as Ha.
        { destruct (activations st) eqn:Ha; [done|].
          assert (isProcessing st = true) by (apply (ci_flag _ Hc); by rewrite Ha).
          congruence. }
        rewrite Ha in Hr. by apply elem_of_nil in Hr.
    + rewrite ingest_not_array in Hshift by done. cbn in Hshift.
      by apply list_elem_of_singleton in Hshift.
  - by apply list_elem_of_singleton in Hshift.
  - by apply fetches_settled_no_shift in Hshift.
  - unfold cooldown_elapsed in Hshift.
    destruct (activations st) as [|a [|]] eqn:Ha; [|destruct n as [|n]|simpl in Hlen; lia].
    + by apply elem_of_nil in Hr.
    + apply list_elem_of_singleton in Hr as <-. cbn in Hshift.
      by apply elem_of_nil in Hshift.
    + cbn in Hshift. by apply elem_of_nil in Hshift.
Qed.

(** C8.  In every reachable state at most one activation of
    [processBatches] is alive and at most one batch has the status triggered.
    An ingestion that arrives while [isProcessing] is set starts no
    activation and dequeues nothing: it leaves the flag set and the queue
    holds what it held plus the new batches.  A batch is dequeued only in a
    state in which no batch is in flight. *)
Theorem C8_single_loop_single_flight (evs : list event) :
  (length (activations (run evs)) ≤ 1)%nat
  ∧ (isProcessing (run evs) = true ↔ activations (run evs) ≠ [])
  ∧ (∀ r r', status_of (heap (run evs)) r = Some triggered →
             status_of (heap (run evs)) r' = Some triggered → r = r')
  ∧ (∀ l p now, isProcessing (run evs) = true →
       activations (ingest (Some (JArr l)) p now (run evs)).1.1 = activations (run evs)
       ∧ isProcessing (ingest (Some (JArr l)) p now (run evs)).1.1 = true
       ∧ processingQueue (ingest (Some (JArr l)) p now (run evs)).1.1
           ≡ₚ processingQueue (run evs) ++ new_refs l (run evs)
       ∧ ∀ b, Shift b ∉ (ingest (Some (JArr l)) p now (run evs)).2)
  ∧ (∀ e b, Shift b ∈ (step (run evs) e).2 → none_in_flight (run evs)).
Proof.
  destruct (run_inv evs) as [Hd Hc].
  split; [apply (ci_single _ Hc)|]. split; [apply (ci_flag _ Hc)|].
  split; [|split].
  - intros r r' Hr%(ci_inflight _ Hc) Hr'%(ci_inflight _ Hc).
    pose proof (ci_single _ Hc) as Hlen.
    destruct (activations (run evs)) as [|a [|]]; [|..|simpl in Hlen; lia].
    + by apply elem_of_nil in Hr.
    + apply list_elem_of_singleton in Hr, Hr'. congruence.
  - intros l p now. apply busy_ingest_keeps_control.
  - intros e b. by apply step_shift_idle.
Qed.

(** ** When the sort throws *)

Section SortThrows.
Context {A : Type} (comparefn : A → A → option number) (bad : A → bool).
Hypothesis comparefn_None :
  ∀ x y, comparefn x y = None ↔ bad x = true ∨ bad y = true.

Lemma sorts_after_None x y :
  sorts_after comparefn x y = None ↔ bad x = true ∨ bad y = true.
Proof.
  rewrite <- comparefn_None. unfold sorts_after.
  by destruct (comparefn x y).
Qed.

Lemma sort_insert_all_good x l :
  bad x = false → (∀ y, y ∈ l → bad y = false) →
  is_Some (sort_insert comparefn x l).
Proof.
  intros Hx. induction l as [|y l IH]; intros Hl; simpl; [done|].
  destruct (sorts_after comparefn x y) as [[]|] eqn:Hxy; simpl.
  - destruct IH as [r ->]; [|done]. intros; apply Hl; by right.
  - done.
  - apply sorts_after_None in Hxy as [?|Hy]; [congruence|].
    rewrite (Hl y) in Hy by left. done.
Qed.

Lemma Array_sort_all_good l :
  (∀ y, y ∈ l → bad y = false) → is_Some (Array_sort comparefn l).
Proof.
  induction l as [|x l IH]; intros Hl; simpl; [done|].
  destruct IH as [s Hs]; [intros; apply Hl; by right|]. rewrite Hs. simpl.
  apply sort_insert_all_good; [apply Hl; by left|].
  intros y Hy. apply Hl. right. by rewrite <- (Array_sort_perm _ _ _ Hs).
Qed.

(** The sort throws exactly when it has something to compare and one of the
    elements makes the comparator throw. *)
Lemma Array_sort_None l :
  Array_sort comparefn l = None
  ↔ (2 ≤ length l)%nat ∧ ∃ x, x ∈ l ∧ bad x = true.
Proof.
  split.
  - intros Hnone.
    assert (∃ x, x ∈ l ∧ bad x = true) as Hbad.
    { destruct (existsb bad l) eqn:Hex.
      - apply existsb_exists in Hex as (x & Hx & Hb). exists x.
        by rewrite list_elem_of_In.
      - assert (is_Some (Array_sort comparefn l)) as [s Hs]; [|congruence].
        apply Array_sort_all_good. intros y Hy. apply not_true_is_false.
        intros Hb. apply not_true_iff_false in Hex. apply Hex, existsb_exists.
        exists y. by rewrite <- list_elem_of_In. }
    split; [|done].
    destruct l as [|x [|y l]]; simpl in *; [done|done|lia].
  - intros [Hlen (z & Hz & Hb)]. induction l as [|x l IH]; [simpl in Hlen; lia|].
    simpl. destruct (Array_sort comparefn l) as [s|] eqn:Hs; [|done]. simpl.
    pose proof (Array_sort_perm _ _ _ Hs) as Hperm.
    destruct s as [|y s].
    { apply Permutation_nil_l in Hperm. subst l. simpl in Hlen. lia. }
    simpl.
    assert (sorts_after comparefn x y = None) as ->; [|done].
    apply sorts_after_None.
    destruct (bad x) eqn:Hx; [by left|]. right.
    apply elem_of_cons in Hz as [->|Hz]; [congruence|].
    destruct (decide (2 ≤ length l)%nat) as [Hl|Hl].
    { by discriminate IH. }
    destruct l as [|y' [|]]; simpl in Hl; [by apply elem_of_nil in Hz| |lia].
    apply Permutation_singleton_r in Hperm. injection Hperm as -> ->.
    by apply list_elem_of_singleton in Hz as ->.
Qed.
End SortThrows.

Lemma compare_refs_None h a b :
  compare_refs h a b = None ↔ key_throws h a = true ∨ key_throws h b = true.
Proof.
  unfold compare_refs, key_throws, compareFn.
  destruct (h !! a) as [x|]; simpl; [|split; [by left|done]].
  destruct (h !! b) as [y|]; simpl.
  - destruct (ToPropertyKey (priority x)); simpl; [|split; [by left|done]].
    destruct (ToPropertyKey (priority y)); simpl; [|split; [by right|done]].
    split; [done|by intros [|]].
  - split; [by right|]. by destruct (ToPropertyKey (priority x)).
Qed.

(** The outcomes of a request whose [ids] is an array. *)
Lemma ingest_outcome l p now st :
  ((ingest (Some (JArr l)) p now st).1.2 = Threw
   ↔ (2 ≤ length (processingQueue (loop_done l p now st)))%nat
      ∧ ∃ r, r ∈ processingQueue (loop_done l p now st)
             ∧ key_throws (heap (loop_done l p now st)) r = true)
  ∧ ((ingest (Some (JArr l)) p now st).1.2 = Threw
     ∨ (ingest (Some (JArr l)) p now st).1.2 = Accepted (next_uuid st)).
Proof.
  rewrite ingest_cases.
  rewrite <- (Array_sort_None _ _ (compare_refs_None _)).
  destruct (Array_sort _ _) as [q|].
  - destruct (if isProcessing st then _ else _). cbn. split; [done|by right].
  - cbn. split; [done|by left].
Qed.

(** ** Requests with an empty [ids] array *)

Lemma run_app evs evs' : run (evs ++ evs') = run_from (run evs) evs'.
Proof. unfold run, run_from. by rewrite fold_left_app. Qed.

Lemma Map_get_update_entries_empty h r m id d :
  Map_get id m = Some d → batches d = [] →
  Map_get id (update_entries h r m) = Some d.
Proof.
  intros Hget He. induction m as [|[k d0] m IH]; [done|]. simpl in *.
  destruct (Nat.eqb_spec k id) as [->|Hne].
  - injection Hget as ->. rewrite He. simpl. by rewrite Nat.eqb_refl.
  - destruct (findIndex _ (batches d0)); simpl;
      destruct (Nat.eqb_spec k id); try done. by apply IH.
Qed.

Lemma empty_record_kept_loop_head id st :
  empty_record_kept id st → empty_record_kept id (loop_head st).1.1.
Proof.
  intros [Hget Hid]. unfold loop_head.
  destruct (processingQueue st) as [|b rest]; [done|].
  split; fields; [|done]. by apply Map_get_update_entries_empty.
Qed.

Lemma empty_record_kept_processBatches id st :
  empty_record_kept id st → empty_record_kept id (processBatches st).1.
Proof.
  intros H. unfold processBatches.
  pose proof (empty_record_kept_loop_head id (set_isProcessing true st) H) as H1.
  by destruct (loop_head _) as [[st1 [a|]] acts].
Qed.

Lemma empty_record_kept_step id st e :
  empty_record_kept id st → empty_record_kept id (step st e).1.
Proof.
  intros H. destruct e as [ids p now|k|n|n]; [rewrite step_ingest|..]; cbn [step fst].
  - destruct (array_or_not ids) as [[l ->]|Hno]; [|by rewrite ingest_not_array].
    rewrite ingest_cases. destruct H as [Hget Hid].
    destruct (Array_sort _ _) as [q|].
    + assert (empty_record_kept id (stored l p now st q)) as H4.
      { split; unfold stored, loop_done; fields; [|lia].
        rewrite Map_get_set_ne by lia. done. }
      destruct (isProcessing st); [done|].
      pose proof (empty_record_kept_processBatches id _ H4).
      by destruct (processBatches _).
    + split; unfold loop_done; fields; [done|lia].
  - done.
  - unfold fetches_settled. destruct (activations st !! n) as [[b|]|]; try done.
    destruct H as [Hget Hid]. split; fields; [|done].
    by apply Map_get_update_entries_empty.
  - unfold cooldown_elapsed. destruct (activations st !! n) as [[b|]|]; try done.
    pose proof (empty_record_kept_loop_head id st H) as H1.
    by destruct (loop_head st) as [[st1 [a|]] acts].
Qed.

Lemma empty_record_kept_run_from id st evs :
  empty_record_kept id st → empty_record_kept id (run_from st evs).
Proof.
  revert st. induction evs as [|e evs IH]; intros st H; [done|].
  simpl. by apply IH, empty_record_kept_step.
Qed.

Lemma loop_head_queue_subset st r :
  r ∈ processingQueue (loop_head st).1.1 → r ∈ processingQueue st.
Proof.
  unfold loop_head. destruct (processingQueue st) as [|b rest] eqn:Hq.
  - fields. by rewrite Hq.
  - fields. by right.
Qed.

Lemma processBatches_queue_subset st r :
  r ∈ processingQueue (processBatches st).1 → r ∈ processingQueue st.
Proof.
  unfold processBatches.
  pose proof (loop_head_queue_subset (set_isProcessing true st) r) as H.
  by destruct (loop_head _) as [[st1 [a|]] acts].
Qed.

(** C9, as stated, fails: while the queue holds two batches whose priority
    is an object with an own [toString] property, the re-sort throws, and a
    request with an empty [ids] array is answered with 500, not with an
    ingestion id. *)
Lemma C9_empty_ids_can_throw :
  processingQueue (run [poison]) = [0; 1]%nat
  ∧ priority <$> heap (run [poison]) = [poisoned_priority; poisoned_priority]
  ∧ ToPropertyKey poisoned_priority = None
  ∧ (ingest (Some (JArr [])) None (λ _, 0) (run [poison])).1.2 = Threw
  ∧ (ingest (Some (JArr [])) None (λ _, 0) (run [poison])).2 = [Respond 500]
  ∧ ingestionStore (ingest (Some (JArr [])) None (λ _, 0) (run [poison])).1.1 = [].
Proof. repeat split; by vm_compute. Qed.

(** C9, amended.  In every reachable state a request whose [ids] is the
    empty array is never rejected; it throws exactly when the queue holds at
    least two batches and one of them has a priority that cannot be converted
    to a property key, and otherwise it succeeds.  It creates no batch and
    adds nothing to the queue.  When it succeeds, the stored ingestion has no
    batches and the status yet_to_start, and that is what a status query
    returns after any further events. *)
Theorem C9_empty_ids (evs : list event) (p : option json) (now : nat → Z) :
  let st := run evs in
  let res := ingest (Some (JArr [])) p now st in
  res.1.2 ≠ Rejected
  ∧ (res.1.2 = Threw
     ↔ (2 ≤ length (processingQueue st))%nat
        ∧ ∃ r, r ∈ processingQueue st ∧ key_throws (heap st) r = true)
  ∧ (res.1.2 = Threw ∨ res.1.2 = Accepted (next_uuid st))
  ∧ created_by st res.1.1 = []
  ∧ (∀ r, r ∈ processingQueue res.1.1 → r ∈ processingQueue st)
  ∧ (∀ id, res.1.2 = Accepted id →
       ∀ evs', get_status id (run_from res.1.1 evs') = Some (stored_record id [], [])).
Proof.
  cbn zeta.
  pose proof (ingest_outcome [] p now (run evs)) as [Hthrew Hcases].
  assert (loop_done [] p now (run evs) = (uuidv4 (run evs)).2) as Hdone.
  { unfold loop_done, after_loop. cbn. rewrite !app_nil_r, Nat.add_0_r.
    by destruct (run evs). }
  rewrite Hdone in Hthrew. fields.
  split; [by destruct Hcases as [->| ->]|]. split; [done|]. split; [done|].
  split; [|split].
  - apply length_zero_iff_nil. by rewrite created_by_ingest_length.
  - intros r. rewrite ingest_cases, Hdone. fields.
    destruct (Array_sort _ _) as [q|] eqn:Hsort; [|done].
    apply Array_sort_perm in Hsort.
    destruct (isProcessing (run evs)).
    + cbn. by rewrite Hsort.
    + intros Hr. rewrite <- Hsort.
      pose proof (processBatches_queue_subset (stored [] p now (run evs) q) r) as H.
      destruct (processBatches _) as [st5 acts]. by apply H.
  - intros id Hacc evs'.
    assert (id = next_uuid (run evs)) as -> by (destruct Hcases; congruence).
    assert (empty_record_kept (next_uuid (run evs))
              (ingest (Some (JArr [])) p now (run evs)).1.1) as Hkept.
    { rewrite ingest_cases in Hacc |- *.
      destruct (Array_sort _ _) as [q|]; [|done].
      assert (empty_record_kept (next_uuid (run evs)) (stored [] p now (run evs) q)) as H4.
      { split; unfold stored; fields; [apply Map_get_set_eq|].
        rewrite Hdone. fields. lia. }
      destruct (isProcessing (run evs)); [done|].
      pose proof (empty_record_kept_processBatches _ _ H4).
      by destruct (processBatches _). }
    apply (empty_record_kept_run_from _ _ evs') in Hkept as [Hget _].
    unfold get_status. by rewrite Hget.
Qed.

(** ** Priorities are not validated *)

Lemma rank_outside_table p k :
  ToPropertyKey p = Some k →
  k ≠ "HIGH"%string → k ≠ "MEDIUM"%string → k ≠ "LOW"%string →
  rank p = None.
Proof.
  intros Hk H1 H2 H3. unfold rank, PRIORITY_VALUES_get, PRIORITY_VALUES.
  rewrite Hk. cbn [own_lookup].
  apply not_eq_sym, String.eqb_neq in H1, H2, H3. rewrite H1, H2, H3.
  by destruct (existsb _ _).
Qed.

Lemma key_throws_loop_done_old l p now st r :
  (r < length (heap st))%nat →
  key_throws (heap (loop_done l p now st)) r = key_throws (heap st) r.
Proof.
  intros Hr. unfold loop_done, key_throws. fields. by rewrite lookup_app_l.
Qed.

Lemma key_throws_loop_done_new l p now st r :
  r ∈ new_refs l st →
  key_throws (heap (loop_done l p now st)) r
  = match ToPropertyKey (default (JStr "MEDIUM") p) with
    | Some _ => false | None => true end.
Proof.
  intros Hr%elem_of_seq. unfold loop_done, key_throws. fields.
  rewrite lookup_app_r by lia.
  rewrite list_lookup_fmap, lookup_seq_lt by lia. done.
Qed.

Lemma new_refs_nil l st : new_refs l st = [] ↔ l = [].
Proof.
  unfold new_refs. pose proof (batch_count_bounds (length l)) as [Hlo Hhi].
  split.
  - intros H%(f_equal length). rewrite length_seq in H. simpl in H.
    apply length_zero_iff_nil. lia.
  - by intros ->.
Qed.

(** C10, as stated, fails twice.  A priority that is an object with an own
    [toString] property makes the comparator throw as soon as the sort has
    two batches to compare, so the request does not succeed; and the array
    [["HIGH"]], which is none of the three strings, is converted to the
    property key ["HIGH"] and has rank 0. *)
Lemma C10_priority_can_throw_or_be_ranked :
  (ingest (Some (JArr four_ids)) (Some poisoned_priority) (λ _, 0) initial).1.2 = Threw
  ∧ JArr [JStr "HIGH"] ≠ JStr "HIGH"
  ∧ JArr [JStr "HIGH"] ≠ JStr "MEDIUM"
  ∧ JArr [JStr "HIGH"] ≠ JStr "LOW"
  ∧ rank (JArr [JStr "HIGH"]) = Some 0.
Proof. repeat split; (discriminate || by vm_compute). Qed.

(** C10, amended.  The handler never rejects a request because of its
    priority: when [ids] is an array the request is not answered with 400,
    whatever the priority.  It throws exactly when the sort has at least two
    batches to compare and the priority of one of them (a queued one or, if
    the request creates batches, the new one) cannot be converted to a
    property key; otherwise it succeeds.  Every batch the request creates
    stores the priority value unchanged (the string MEDIUM when the field is
    absent).  A priority whose property key is none of HIGH, MEDIUM, LOW, or
    that has no property key, has no priority rank. *)
Theorem C10_priority_not_validated (evs : list event) (l : list json)
    (p : option json) (now : nat → Z) :
  let st := run evs in
  let res := ingest (Some (JArr l)) p now st in
  let pr := default (JStr "MEDIUM") p in
  res.1.2 ≠ Rejected
  ∧ (res.1.2 = Threw
     ↔ (2 ≤ length (processingQueue st) + batch_count (length l))%nat
        ∧ ((∃ r, r ∈ processingQueue st ∧ key_throws (heap st) r = true)
           ∨ (l ≠ [] ∧ ToPropertyKey pr = None)))
  ∧ (res.1.2 = Threw ∨ res.1.2 = Accepted (next_uuid st))
  ∧ (∀ b, b ∈ created_by st res.1.1 → priority b = pr)
  ∧ (∀ k, ToPropertyKey pr = Some k →
          k ≠ "HIGH"%string → k ≠ "MEDIUM"%string → k ≠ "LOW"%string →
          rank pr = None)
  ∧ (ToPropertyKey pr = None → rank pr = None).
Proof.
  cbn zeta. destruct (run_inv evs) as [Hd _].
  pose proof (ingest_outcome l p now (run evs)) as [Hthrew Hcases].
  split; [by destruct Hcases as [->| ->]|]. split; [|split; [done|split; [|split]]].
  - rewrite Hthrew. clear Hthrew Hcases.
    assert (processingQueue (loop_done l p now (run evs))
            = processingQueue (run evs) ++ new_refs l (run evs)) as -> by done.
    rewrite length_app. unfold new_refs at 1. rewrite length_seq.
    apply and_iff_compat_l. split.
    + intros (r & [Hr|Hr]%elem_of_app & Hbad).
      * left. exists r. split; [done|].
        rewrite key_throws_loop_done_old in Hbad; [done|].
        eapply status_of_valid, (di_queue_fresh _ Hd), Hr.
      * right. rewrite key_throws_loop_done_new in Hbad by done. split.
        { intros ->. by apply elem_of_nil in Hr. }
        by destruct (ToPropertyKey _).
    + intros [(r & Hr & Hbad)|[Hl Hkey]].
      * exists r. split; [apply elem_of_app; by left|].
        rewrite key_throws_loop_done_old; [done|].
        eapply status_of_valid, (di_queue_fresh _ Hd), Hr.
      * destruct (new_refs l (run evs)) as [|r rs] eqn:Hnew.
        { by apply new_refs_nil in Hnew. }
        exists r. split; [apply elem_of_app; right; by left|].
        rewrite key_throws_loop_done_new by (rewrite Hnew; by left).
        by rewrite Hkey.
  - intros b [k Hk]%list_elem_of_lookup.
    apply created_by_ingest_lookup in Hk as [_ Hf]. by injection Hf.
  - intros k. apply rank_outside_table.
  - intros Hk. unfold rank. by rewrite Hk.
Qed.

(** ** Scheduling order *)

Lemma key_le_total a b : ¬ key_le a b → key_le b a.
Proof. unfold key_le. lia. Qed.

Lemma key_le_trans a b c : key_le a b → key_le b c → key_le a c.
Proof. unfold key_le. lia. Qed.

Lemma sched_le_trans h a b c : sched_le h a b → sched_le h b c → sched_le h a c.
Proof.
  intros (ka & kb & Ha & Hb & Hab) (kb' & kc & Hb' & Hc & Hbc).
  exists ka, kc. repeat split; [done..|].
  rewrite Hb in Hb'. injection Hb' as <-. by eapply key_le_trans.
Qed.

Lemma sorts_after_keyed h x y kx ky :
  sched_key h x = Some kx → sched_key h y = Some ky →
  sorts_after (compare_refs h) x y = Some (bool_decide (¬ key_le kx ky)).
Proof.
  unfold sched_key, sorts_after, compare_refs, compareFn, rank.
  destruct (h !! x) as [bx|]; [|done]. destruct (h !! y) as [by_|]; [|done].
  simpl.
  destruct (ToPropertyKey (priority bx)) as [sx|]; [|done].
  destruct (ToPropertyKey (priority by_)) as [sy|]; [|done].
  simpl.
  destruct (PRIORITY_VALUES_get sx) as [rx| |]; try done.
  destruct (PRIORITY_VALUES_get sy) as [ry| |]; try done.
  intros [= <-] [= <-]. simpl. f_equal.
  unfold key_le. simpl.
  destruct (Z.eqb_spec rx ry) as [->|Hne]; simpl;
    match goal with |- (0 <? ?z) = _ => destruct (Z.ltb_spec 0 z) end;
    symmetry; (apply bool_decide_eq_true_2 || apply bool_decide_eq_false_2); lia.
Qed.

Lemma sort_insert_sorted h x l r :
  (∀ y, y ∈ x :: l → is_Some (sched_key h y)) →
  StronglySorted (sched_le h) l →
  sort_insert (compare_refs h) x l = Some r →
  StronglySorted (sched_le h) r.
Proof.
  revert r. induction l as [|y l IH]; intros r Hkeys Hsorted; simpl.
  - intros [= <-]. by repeat constructor.
  - destruct (Hkeys x) as [kx Hkx]; [by left|].
    destruct (Hkeys y) as [ky Hky]; [right; by left|].
    rewrite (sorts_after_keyed h x y kx ky) by done. simpl.
    apply StronglySorted_inv in Hsorted as [Hl Hy].
    case_bool_decide as Hle; simpl.
    + destruct (sort_insert (compare_refs h) x l) as [r'|] eqn:Hins; [|done].
      simpl. intros [= <-].
      constructor.
      * eapply IH; [|done|done]. intros z [->|Hz]%elem_of_cons; apply Hkeys;
          [by left|right; by right].
      * apply Forall_forall. intros z Hz.
        rewrite (sort_insert_perm _ _ _ _ Hins) in Hz.
        apply elem_of_cons in Hz as [->|Hz].
        { exists ky, kx. repeat split; [done..|]. by apply key_le_total. }
        by eapply Forall_forall in Hy.
    + intros [= <-].
      assert (sched_le h x y) as Hxy by (by exists kx, ky).
      constructor; [by constructor|].
      constructor; [done|].
      eapply Forall_impl; [done|]. intros z Hz. by eapply sched_le_trans.
Qed.

Lemma Array_sort_sorted h l q :
  (∀ y, y ∈ l → is_Some (sched_key h y)) →
  Array_sort (compare_refs h) l = Some q →
  StronglySorted (sched_le h) q.
Proof.
  revert q. induction l as [|x l IH]; intros q Hkeys; simpl.
  - intros [= <-]. constructor.
  - destruct (Array_sort (compare_refs h) l) as [s|] eqn:Hs; [|done]. simpl.
    apply sort_insert_sorted.
    + intros y Hy. apply Hkeys. by rewrite <- (Array_sort_perm _ _ _ Hs).
    + apply IH; [|done]. intros; apply Hkeys; by right.
Qed.

Lemma sorted_front_minimal h q :
  StronglySorted (sched_le h) q → front_minimal h q.
Proof.
  destruct q as [|f rest]; [done|]. intros [_ Hf]%StronglySorted_inv r Hr _.
  by eapply Forall_forall in Hf.
Qed.

(** *** Keys depend on the immutable part of the heap only *)

Lemma frozen_lookup (h h' : list batch) r b' :
  frozen <$> h = frozen <$> h' → h' !! r = Some b' →
  ∃ b, h !! r = Some b ∧ frozen b = frozen b'.
Proof.
  intros Heq Hb'.
  assert ((frozen <$> h) !! r = Some (frozen b')) as Hf.
  { by rewrite Heq, list_lookup_fmap, Hb'. }
  rewrite list_lookup_fmap in Hf. destruct (h !! r) as [b|]; [|done].
  exists b. split; [done|]. simpl in Hf. congruence.
Qed.

Lemma sched_key_frozen (h h' : list batch) r :
  frozen <$> h = frozen <$> h' → sched_key h r = sched_key h' r.
Proof.
  intros Heq. unfold sched_key.
  destruct (h' !! r) as [b'|] eqn:Hb'.
  - destruct (frozen_lookup h h' r b' Heq Hb') as (b & -> & Hf).
    injection Hf as _ _ -> ->. done.
  - destruct (h !! r) as [b|] eqn:Hb; [|done].
    destruct (frozen_lookup h' h r b (eq_sym Heq) Hb) as (? & ? & _). congruence.
Qed.

Lemma sched_le_frozen (h h' : list batch) r r' :
  frozen <$> h = frozen <$> h' → sched_le h r r' → sched_le h' r r'.
Proof.
  intros Heq (k & k' & Hk & Hk' & Hle). exists k, k'.
  by rewrite <- !(sched_key_frozen h h' _ Heq).
Qed.

Lemma all_ranked_frozen (h h' : list batch) :
  frozen <$> h = frozen <$> h' → all_ranked h → all_ranked h'.
Proof.
  intros Heq Hall b' [r Hr]%list_elem_of_lookup.
  destruct (frozen_lookup h h' r b' Heq Hr) as (b & Hb & Hf).
  injection Hf as _ _ <- _. apply Hall. by eapply list_elem_of_lookup_2.
Qed.

Lemma sorted_frozen (h h' : list batch) q :
  frozen <$> h = frozen <$> h' →
  StronglySorted (sched_le h) q → StronglySorted (sched_le h') q.
Proof.
  intros Heq. induction 1 as [|r q Hq IH Hr]; constructor; [done|].
  eapply Forall_impl; [done|]. intros r'. by apply sched_le_frozen.
Qed.

(** *** The queue of ranked batches is sorted in every reachable state *)

Lemma loop_head_sorted st :
  StronglySorted (sched_le (heap st)) (processingQueue st) →
  StronglySorted (sched_le (heap (loop_head st).1.1))
                 (processingQueue (loop_head st).1.1).
Proof.
  intros Hs. apply (sorted_frozen (heap st)); [by rewrite loop_head_frozen|].
  unfold loop_head. destruct (processingQueue st) as [|b rest] eqn:Hq.
  - fields. by rewrite Hq.
  - fields. by apply StronglySorted_inv in Hs as [? _].
Qed.

Lemma loop_head_dequeues_minimum st b r :
  StronglySorted (sched_le (heap st)) (processingQueue st) →
  Shift b ∈ (loop_head st).2 →
  r ∈ processingQueue (loop_head st).1.1 →
  sched_le (heap (loop_head st).1.1) b r.
Proof.
  intros Hs [rest Hq]%loop_head_shift Hr.
  apply (sched_le_frozen (heap st)); [by rewrite loop_head_frozen|].
  rewrite Hq in Hs. apply StronglySorted_inv in Hs as [_ Hb].
  eapply Forall_forall; [exact Hb|].
  unfold loop_head in Hr. rewrite Hq in Hr. by fields.
Qed.

Lemma queue_keyed st :
  data_inv st → all_ranked (heap st) →
  ∀ r, r ∈ processingQueue st → is_Some (sched_key (heap st) r).
Proof.
  intros Hd Hall r Hr%(di_queue_fresh _ Hd). unfold status_of, sched_key in *.
  destruct (heap st !! r) as [b|] eqn:Hb; [|done].
  destruct (Hall b) as [rk ->]; [by eapply list_elem_of_lookup_2|]. done.
Qed.

(** With ranked priorities only, the sort in the handler succeeds and leaves
    the queue sorted. *)
Lemma ranked_sort l p now st :
  data_inv st → all_ranked (heap (loop_done l p now st)) →
  ∃ q, Array_sort (compare_refs (heap (loop_done l p now st)))
                  (processingQueue (loop_done l p now st)) = Some q
       ∧ StronglySorted (sched_le (heap (loop_done l p now st))) q.
Proof.
  intros Hd Hall.
  pose proof (queue_keyed _ (data_inv_loop_done l p now st Hd) Hall) as Hkeys.
  destruct (Array_sort _ _) as [q|] eqn:Hsort.
  - exists q. split; [done|]. by eapply Array_sort_sorted.
  - apply (Array_sort_None _ _ (compare_refs_None _)) in Hsort as (_ & r & Hr & Hbad).
    destruct (Hkeys r Hr) as [k Hk]. unfold sched_key, key_throws, rank in *.
    destruct (_ !! r) as [b|]; [|done].
    by destruct (ToPropertyKey (priority b)).
Qed.

Lemma stored_heap l p now st q :
  heap (stored l p now st q) = heap (loop_done l p now st).
Proof. done. Qed.

Lemma sorted_inv_step st e :
  data_inv st → sorted_inv st → sorted_inv (step st e).1.
Proof.
  intros Hd Hs. destruct e as [ids p now|k|n|n];
    [rewrite step_ingest|..]; cbn [step fst].
  - destruct (array_or_not ids) as [[l ->]|Hno]; [|by rewrite ingest_not_array].
    intros Hall.
    assert (all_ranked (heap (loop_done l p now st))) as Hall2.
    { revert Hall. apply all_ranked_frozen. rewrite ingest_frozen.
      unfold loop_done. fields. rewrite fmap_app.
      destruct (ingest_outcome l p now st) as [_ [-> | ->]]; done. }
    destruct (ranked_sort l p now st Hd Hall2) as (q & Hsort & Hq).
    revert Hall. rewrite ingest_cases, Hsort.
    destruct (isProcessing st); [done|]. unfold processBatches.
    pose proof (loop_head_sorted (set_isProcessing true (stored l p now st q)) Hq) as H.
    destruct (loop_head _) as [[st1 [a|]] acts]; by fields.
  - done.
  - intros Hall.
    assert (all_ranked (heap st)) as Hall0.
    { revert Hall. apply all_ranked_frozen. by rewrite fetches_settled_frozen. }
    specialize (Hs Hall0).
    apply (sorted_frozen (heap st)); [by rewrite fetches_settled_frozen|].
    unfold fetches_settled. by destruct (activations st !! n) as [[b|]|].
  - intros Hall.
    assert (all_ranked (heap st)) as Hall0.
    { revert Hall. apply all_ranked_frozen. by rewrite cooldown_elapsed_frozen. }
    specialize (Hs Hall0). unfold cooldown_elapsed in *.
    destruct (activations st !! n) as [[b|]|]; [done| |done].
    pose proof (loop_head_sorted st Hs) as H.
    destruct (loop_head _) as [[st1 [a|]] acts]; by fields.
Qed.

Lemma sorted_inv_run evs : sorted_inv (run evs).
Proof.
  induction evs as [|e evs IH] using rev_ind.
  - intros _. constructor.
  - rewrite run_snoc. apply sorted_inv_step; [apply run_inv|done].
Qed.

Lemma step_dequeues_minimum st e b r :
  data_inv st → sorted_inv st →
  Shift b ∈ (step st e).2 → all_ranked (heap (step st e).1) →
  r ∈ processingQueue (step st e).1 → sched_le (heap (step st e).1) b r.
Proof.
  intros Hd Hs. destruct e as [ids p now|k|n|n];
    [rewrite step_ingest|..]; cbn [step fst snd].
  - destruct (array_or_not ids) as [[l ->]|Hno]; last first.
    { rewrite ingest_not_array by done. cbn.
      by intros ?%list_elem_of_singleton. }
    intros Hshift Hall.
    assert (all_ranked (heap (loop_done l p now st))) as Hall2.
    { revert Hall. apply all_ranked_frozen. rewrite ingest_frozen.
      unfold loop_done. fields. rewrite fmap_app.
      destruct (ingest_outcome l p now st) as [_ [-> | ->]]; done. }
    destruct (ranked_sort l p now st Hd Hall2) as (q & Hsort & Hq).
    revert Hshift Hall. rewrite ingest_cases, Hsort.
    destruct (isProcessing st).
    { cbn. by intros ?%list_elem_of_singleton. }
    unfold processBatches.
    pose proof (loop_head_dequeues_minimum
                  (set_isProcessing true (stored l p now st q)) b r Hq) as H.
    destruct (loop_head _) as [[st1 a] acts]. cbn [fst snd] in *.
    intros [Hshift|[=]%list_elem_of_singleton]%elem_of_app _ Hr.
    destruct a; fields; by apply H.
  - by intros ?%list_elem_of_singleton.
  - by intros ?%fetches_settled_no_shift.
  - intros Hshift Hall.
    assert (all_ranked (heap st)) as Hall0.
    { revert Hall. apply all_ranked_frozen. by rewrite cooldown_elapsed_frozen. }
    specialize (Hs Hall0). revert Hshift. unfold cooldown_elapsed in *.
    destruct (activations st !! n) as [[b'|]|]; try by intros ?%elem_of_nil.
    pose proof (loop_head_dequeues_minimum st b r Hs) as H.
    destruct (loop_head _) as [[st1 a] acts]. cbn [fst snd] in *.
    intros Hshift Hr. destruct a; fields; by apply H.
Qed.

(** C1, as stated, fails: a priority outside the table makes the comparator
    return [NaN], which the sort reads as "equal", so the HIGH batch stays
    behind the batch submitted before it and that batch is dequeued first. *)
Lemma C1_unranked_priority_blocks_high :
  processingQueue (run c1_events) = [1; 2]%nat
  ∧ priority <$> heap (run c1_events) = [JStr "MEDIUM"; JStr "URGENT"; JStr "HIGH"]
  ∧ ¬ front_minimal (heap (run c1_events)) (processingQueue (run c1_events))
  ∧ (step (run (c1_events ++ [FetchesSettled 0])) (CooldownElapsed 0)).2
    = [Shift 1%nat; Publish 1%nat triggered; Fetch 1%nat (JStr "b")].
Proof.
  assert (processingQueue (run c1_events) = [1; 2]%nat) as Hq by (by vm_compute).
  split; [done|]. split; [by vm_compute|]. split; [|by vm_compute].
  rewrite Hq. intros H.
  destruct (H 2%nat) as (k & k' & Hk & _); [by left|vm_compute; by eexists|].
  vm_compute in Hk. discriminate Hk.
Qed.

(** C1, amended.  In every reachable state in which every batch created so
    far has a priority with a rank (HIGH, MEDIUM or LOW, or a value converted
    to one of these keys), the queue is sorted by (priority rank,
    created_time), so its front is minimal; and when an event of such a run
    dequeues a batch, that batch is not after any batch left in the queue. *)
Theorem C1_ranked_queue_is_served_in_order (evs : list event) :
  all_ranked (heap (run evs)) →
  StronglySorted (sched_le (heap (run evs))) (processingQueue (run evs))
  ∧ front_minimal (heap (run evs)) (processingQueue (run evs))
  ∧ ∀ e b, Shift b ∈ (step (run evs) e).2 →
           all_ranked (heap (run (evs ++ [e]))) →
           ∀ r, r ∈ processingQueue (run (evs ++ [e])) →
                sched_le (heap (run (evs ++ [e]))) b r.
Proof.
  intros Hall. pose proof (sorted_inv_run evs Hall) as Hs.
  split; [done|]. split; [by apply sorted_front_minimal|].
  intros e b Hshift Hall' r Hr. rewrite run_snoc in *.
  apply step_dequeues_minimum; [apply run_inv|apply sorted_inv_run|done..].
Qed.

Lemma C1_ranked_queue_is_served_in_order_witness :
  processingQueue (run c1_ranked_events) = [3; 1; 2]%nat
  ∧ front_minimal (heap (run c1_ranked_events)) (processingQueue (run c1_ranked_events)).
Proof.
  split; [by vm_compute|].
  apply (C1_ranked_queue_is_served_in_order c1_ranked_events).
  intros b Hb. vm_compute in Hb.
  repeat (apply elem_of_cons in Hb as [->|Hb]; [by eexists|]).
  by apply elem_of_nil in Hb.
Defined.

(** * Further properties of the handlers and of the loop *)

(** ** Stored ingestions stay and keep their batches *)

Lemma run_from_snoc st evs e :
  run_from st (evs ++ [e]) = (step (run_from st evs) e).1.
Proof. unfold run_from. by rewrite fold_left_app. Qed.

Lemma run_from_inv st evs :
  data_inv st → control_inv st →
  data_inv (run_from st evs) ∧ control_inv (run_from st evs).
Proof.
  intros Hd Hc. induction evs as [|e evs IH] using rev_ind; [done|].
  rewrite run_from_snoc. destruct IH. by apply step_inv.
Qed.

Lemma Map_get_elem {V} id (m : list (uuid * V)) v :
  Map_get id m = Some v → (id, v) ∈ m.
Proof.
  induction m as [|[k w] m IH]; [done|]. simpl.
  destruct (Nat.eqb_spec k id) as [->|_].
  - intros [= ->]. by left.
  - intros ?%IH. by right.
Qed.

Lemma Map_get_keys {V} id (m : list (uuid * V)) :
  Map_get id m = None ↔ id ∉ fst <$> m.
Proof.
  induction m as [|[k w] m IH]; csimpl.
  - split; [intros _ ?%elem_of_nil|]; done.
  - rewrite not_elem_of_cons, <- IH.
    destruct (Nat.eqb_spec k id) as [->|Hne].
    + split; [done|by intros [? _]].
    + split; [intros H; split; [by intros ->|done]|by intros [_ ?]].
Qed.

Lemma publish_keeps_entry r s st id d :
  data_inv st → (r < length (heap st))%nat →
  Map_get id (ingestionStore st) = Some d →
  ∃ d', Map_get id (ingestionStore (updateIngestionStatus r (assign_status r s st)))
        = Some d'
        ∧ batches d' = batches d ∧ ingestion_id d' = ingestion_id d.
Proof.
  intros Hd Hr Hget. fields. rewrite update_entries_refresh.
  - rewrite Map_get_refresh, Hget. simpl. eexists. split; [done|].
    unfold refresh. simpl. by destruct (bool_decide _).
  - by rewrite length_alter.
  - rewrite batch_id_alter_status. apply (di_batch_ids _ Hd).
  - apply (di_store_nodup _ Hd).
Qed.

Lemma loop_head_keeps_entry id d st :
  data_inv st → Map_get id (ingestionStore st) = Some d →
  ∃ d', Map_get id (ingestionStore (loop_head st).1.1) = Some d'
        ∧ batches d' = batches d ∧ ingestion_id d' = ingestion_id d.
Proof.
  intros Hd Hget. unfold loop_head.
  destruct (processingQueue st) as [|b rest] eqn:Hq; [by exists d|].
  cbn [fst]. apply publish_keeps_entry; [|fields|done].
  - apply data_inv_set_processingQueue; [done| |].
    + pose proof (di_queue_nodup _ Hd) as Hnd. rewrite Hq in Hnd.
      by apply NoDup_cons in Hnd as [_ ?].
    + intros r Hr. rewrite Hq. by right.
  - eapply status_of_valid, (di_queue_fresh _ Hd). rewrite Hq. by left.
Qed.

Lemma processBatches_keeps_entry id d st :
  data_inv st → Map_get id (ingestionStore st) = Some d →
  ∃ d', Map_get id (ingestionStore (processBatches st).1) = Some d'
        ∧ batches d' = batches d ∧ ingestion_id d' = ingestion_id d.
Proof.
  intros Hd Hget. unfold processBatches.
  pose proof (loop_head_keeps_entry id d (set_isProcessing true st)
                (data_inv_set_isProcessing _ _ Hd) Hget) as H.
  by destruct (loop_head _) as [[st1 [a|]] acts].
Qed.

Lemma step_keeps_entry st e id d :
  data_inv st → control_inv st →
  Map_get id (ingestionStore st) = Some d →
  ∃ d', Map_get id (ingestionStore (step st e).1) = Some d'
        ∧ batches d' = batches d ∧ ingestion_id d' = ingestion_id d.
Proof.
  intros Hd Hc Hget.
  destruct e as [ids p now|k|n|n]; [rewrite step_ingest|..]; cbn [step fst].
  - destruct (array_or_not ids) as [[l ->]|Hno];
      [|rewrite ingest_not_array by done; by exists d].
    rewrite ingest_cases.
    destruct (Array_sort _ _) as [q|] eqn:Hsort; [|by exists d].
    assert (Map_get id (ingestionStore (stored l p now st q)) = Some d) as Hget4.
    { unfold stored, loop_done. fields. rewrite Map_get_set_ne; [done|].
      assert (id < next_uuid st)%nat; [|lia].
      apply (di_store_bound _ Hd).
      destruct (decide (id ∈ fst <$> ingestionStore st)) as [|Hn]; [done|].
      apply Map_get_keys in Hn. congruence. }
    destruct (isProcessing st); [by exists d|].
    pose proof (processBatches_keeps_entry id d _
                  (data_inv_stored l p now st q Hd Hsort) Hget4) as H.
    by destruct (processBatches _).
  - by exists d.
  - unfold fetches_settled.
    destruct (activations st !! n) as [[b|]|] eqn:Hn; try by exists d.
    cbn [fst]. fields.
    apply (publish_keeps_entry b completed st id d); [done| |done].
    eapply status_of_valid, (ci_inflight _ Hc). by eapply list_elem_of_lookup_2.
  - unfold cooldown_elapsed.
    destruct (activations st !! n) as [[b|]|] eqn:Hn; try by exists d.
    pose proof (loop_head_keeps_entry id d st Hd Hget) as H.
    by destruct (loop_head st) as [[st1 [a|]] acts].
Qed.

Lemma run_from_keeps_entry st evs id d :
  data_inv st → control_inv st →
  Map_get id (ingestionStore st) = Some d →
  ∃ d', Map_get id (ingestionStore (run_from st evs)) = Some d'
        ∧ batches d' = batches d ∧ ingestion_id d' = ingestion_id d.
Proof.
  intros Hd Hc Hget. induction evs as [|e evs IH] using rev_ind; [by exists d|].
  destruct IH as (d1 & Hget1 & Hb1 & Hi1).
  destruct (run_from_inv st evs Hd Hc) as [Hd1 Hc1].
  rewrite run_from_snoc.
  destruct (step_keeps_entry _ e id d1 Hd1 Hc1 Hget1) as (d2 & ? & ? & ?).
  exists d2. split; [done|]. split; congruence.
Qed.

Lemma heap_extends_refl h : heap_extends h h.
Proof. intros r b Hb. by exists b. Qed.

Lemma heap_extends_trans h1 h2 h3 :
  heap_extends h1 h2 → heap_extends h2 h3 → heap_extends h1 h3.
Proof.
  intros H12 H23 r b Hb. destruct (H12 r b Hb) as (b2 & Hb2 & Hf2).
  destruct (H23 r b2 Hb2) as (b3 & Hb3 & Hf3). exists b3. split; [done|]. congruence.
Qed.

Lemma run_from_heap_extends st evs :
  data_inv st → control_inv st → heap_extends (heap st) (heap (run_from st evs)).
Proof.
  intros Hd Hc. induction evs as [|e evs IH] using rev_ind; [apply heap_extends_refl|].
  eapply heap_extends_trans; [done|]. rewrite run_from_snoc.
  destruct (run_from_inv st evs Hd Hc) as [Hd1 Hc1].
  intros r b Hb. destruct (step_advance _ e Hd1 Hc1 r b Hb) as (b' & ? & ? & _).
  by exists b'.
Qed.

Lemma accepted_entry l p now st id :
  data_inv st → (ingest (Some (JArr l)) p now st).1.2 = Accepted id →
  ∃ d, Map_get id (ingestionStore (ingest (Some (JArr l)) p now st).1.1) = Some d
       ∧ batches d = new_refs l st ∧ ingestion_id d = id.
Proof.
  intros Hd. rewrite ingest_cases.
  destruct (Array_sort _ _) as [q|] eqn:Hsort; [|done].
  pose proof (data_inv_stored l p now st q Hd Hsort) as H4.
  assert (Map_get (next_uuid st) (ingestionStore (stored l p now st q))
          = Some (stored_record (next_uuid st) (new_refs l st))) as Hget.
  { unfold stored. fields. apply Map_get_set_eq. }
  destruct (isProcessing st).
  { cbn. intros [= <-]. eauto. }
  pose proof (processBatches_keeps_entry _ _ _ H4 Hget) as (d' & Hget' & Hbs & Hid).
  destruct (processBatches _) as [st5 acts]. cbn. intros [= <-]. eauto.
Qed.

Lemma created_lookup_ids l p now st k r :
  new_refs l st !! k = Some r →
  ∃ b, heap (ingest (Some (JArr l)) p now st).1.1 !! r = Some b
       ∧ ids b = slice l (3 * k) (3 * k + 3).
Proof.
  intros [-> Hk]%lookup_seq.
  assert (is_Some (created_by st (ingest (Some (JArr l)) p now st).1.1 !! k)) as [b Hb].
  { apply lookup_lt_is_Some. by rewrite created_by_ingest_length. }
  exists b. split.
  - unfold created_by in Hb. by rewrite lookup_drop in Hb.
  - apply created_by_ingest_lookup in Hb as [_ Hf]. by injection Hf.
Qed.

(** ** Publication of the triggered status (C5) *)








(** X1.  Submit, then query.  Once a request has been accepted in a
    reachable state, the status query for the returned id finds the
    ingestion after any further events: the record carries that id, its
    [batches] array is unchanged, every listed batch object exists, and the
    identifiers of the listed batches, concatenated in order, are the
    identifiers that were submitted. *)
Theorem X1_accepted_ingestion_stays_queryable (evs : list event) (l : list json)
    (p : option json) (now : nat → Z) (id : uuid) (evs' : list event) :
  (ingest (Some (JArr l)) p now (run evs)).1.2 = Accepted id →
  ∃ d bl,
    get_status id (run_from (ingest (Some (JArr l)) p now (run evs)).1.1 evs')
    = Some (d, Some <$> bl)
    ∧ ingestion_id d = id
    ∧ batches d = new_refs l (run evs)
    ∧ concat (ids <$> bl) = l.
Proof.
  intros Hacc. destruct (run_inv evs) as [Hd Hc].
  destruct (accepted_entry l p now (run evs) id Hd Hacc) as (d0 & Hget0 & Hb0 & Hi0).
  pose proof (step_inv (run evs) (PostIngest (Some (JArr l)) p now) Hd Hc) as [Hd1 Hc1].
  rewrite step_ingest in Hd1, Hc1. cbn [fst] in Hd1, Hc1.
  destruct (run_from_keeps_entry _ evs' id d0 Hd1 Hc1 Hget0) as (d & Hget & Hb & Hi).
  pose proof (run_from_heap_extends _ evs' Hd1 Hc1) as Hext.
  set (st1 := (ingest (Some (JArr l)) p now (run evs)).1.1) in *.
  assert (∀ k r, new_refs l (run evs) !! k = Some r →
                 ∃ b, heap (run_from st1 evs') !! r = Some b
                      ∧ ids b = slice l (3 * k) (3 * k + 3)) as Hlook.
  { intros k r Hk.
    destruct (created_lookup_ids l p now (run evs) k r Hk) as (b & Hb1 & Hids).
    destruct (Hext r b Hb1) as (b' & Hb' & Hf). exists b'. split; [done|].
    injection Hf as _ -> _ _. done. }
  exists d,
    ((λ r, default (Batch 0 [] yet_to_start JNull 0) (heap (run_from st1 evs') !! r))
       <$> new_refs l (run evs)).
  split; [|split; [congruence|split; [congruence|]]].
  - unfold get_status. rewrite Hget. simpl. do 2 f_equal.
    rewrite Hb, Hb0, <- list_fmap_compose.
    apply list_fmap_ext. intros k r Hk. simpl.
    by destruct (Hlook k r Hk) as (b & -> & _).
  - rewrite <- list_fmap_compose.
    transitivity (concat ((λ k, slice l (3 * k) (3 * k + 3))
                          <$> seq 0 (batch_count (length l)))).
    + f_equal. unfold new_refs. apply list_eq. intros k.
      rewrite !list_lookup_fmap.
      destruct (decide (k < batch_count (length l))%nat) as [Hlt|Hge].
      * rewrite !lookup_seq_lt by done. simpl.
        destruct (Hlook k (length (heap (run evs)) + k)%nat) as (b & -> & Hids).
        { by apply lookup_seq. }
        simpl. by rewrite Hids.
      * by rewrite !lookup_seq_ge by lia.
    + rewrite concat_slices. apply take_ge.
      pose proof (batch_count_bounds (length l)). lia.
Qed.

Lemma X1_accepted_ingestion_stays_queryable_witness :
  ∃ d bl,
    get_status 0 (run_from (ingest (Some (JArr seven)) None (λ _, 0) (run [])).1.1
                           (drain_rounds 2))
    = Some (d, Some <$> bl)
    ∧ ingestion_id d = 0%nat
    ∧ batches d = new_refs seven (run [])
    ∧ concat (ids <$> bl) = seven.
Proof.
  apply (X1_accepted_ingestion_stays_queryable [] seven None (λ _, 0)
           0%nat (drain_rounds 2)).
  by vm_compute.
Defined.

(** ** Status queries *)

(** X2.  A status query never changes the state and answers once: with 404
    exactly when no ingestion is stored under the id, which is the case for
    every id the supply has not handed out yet, and with 200 otherwise. *)
Theorem X2_status_query_404 (evs : list event) (id : uuid) :
  (step (run evs) (GetStatus id)).1 = run evs
  ∧ ((step (run evs) (GetStatus id)).2 = [Respond 404]
     ↔ id ∉ fst <$> ingestionStore (run evs))
  ∧ ((step (run evs) (GetStatus id)).2 = [Respond 200]
     ↔ id ∈ fst <$> ingestionStore (run evs))
  ∧ ((next_uuid (run evs) ≤ id)%nat → (step (run evs) (GetStatus id)).2 = [Respond 404]).
Proof.
  destruct (run_inv evs) as [Hd _].
  assert (get_status id (run evs) = None ↔ id ∉ fst <$> ingestionStore (run evs)) as Hnone.
  { rewrite <- Map_get_keys. unfold get_status.
    by destruct (Map_get id (ingestionStore (run evs))). }
  assert ((next_uuid (run evs) ≤ id)%nat → id ∉ fst <$> ingestionStore (run evs)) as Hfresh.
  { intros Hge Hin%(di_store_bound _ Hd). lia. }
  cbn [step fst snd].
  destruct (get_status id (run evs)) as [x|].
  - split; [done|]. split; [|split].
    + split; [done|]. intros Hn. by apply Hnone in Hn.
    + split; [|done]. intros _.
      destruct (decide (id ∈ fst <$> ingestionStore (run evs))) as [|Hn]; [done|].
      by apply Hnone in Hn.
    + intros Hn%Hfresh. by apply Hnone in Hn.
  - split; [done|]. split; [|split].
    + split; [|done]. intros _. by apply Hnone.
    + split; [done|]. intros Hin. by apply Hnone in Hin.
    + done.
Qed.

(** ** The queue holds exactly the waiting batches *)

Lemma status_of_alter_same s s' r (h : list batch) :
  status_of (alter (with_status s) r h) r = Some s' → s' = s.
Proof.
  unfold status_of. rewrite list_lookup_alter_eq.
  destruct (h !! r); simpl; congruence.
Qed.

Lemma queued_inv_loop_head st : queued_inv st → queued_inv (loop_head st).1.1.
Proof.
  unfold queued_inv. intros H r. unfold loop_head.
  destruct (processingQueue st) as [|b rest] eqn:Hq.
  - fields. intros Hr%H. by apply elem_of_nil in Hr.
  - fields. intros Hr. destruct (decide (b = r)) as [->|Hne].
    + by apply status_of_alter_same in Hr.
    + rewrite status_of_alter_ne in Hr by done. apply H in Hr.
      apply elem_of_cons in Hr as [->|]; done.
Qed.

Lemma queued_inv_processBatches st :
  queued_inv st → queued_inv (processBatches st).1.
Proof.
  intros H. unfold processBatches.
  pose proof (queued_inv_loop_head (set_isProcessing true st) H) as H1.
  by destruct (loop_head _) as [[st1 [a|]] acts].
Qed.

Lemma queued_inv_loop_done l p now st :
  queued_inv st → queued_inv (loop_done l p now st).
Proof.
  unfold queued_inv. intros H r Hr. unfold loop_done in *. fields. apply elem_of_app.
  destruct (decide (r < length (heap st))%nat) as [Hlt|Hge].
  - left. apply H. by rewrite status_of_app_l in Hr.
  - right. apply status_of_valid in Hr.
    rewrite length_app, length_fmap, length_seq in Hr.
    apply elem_of_seq. lia.
Qed.

Lemma queued_inv_step st e : queued_inv st → queued_inv (step st e).1.
Proof.
  intros H. destruct e as [ids p now|k|n|n]; [rewrite step_ingest|..]; cbn [step fst].
  - destruct (array_or_not ids) as [[l ->]|Hno]; [|by rewrite ingest_not_array].
    rewrite ingest_cases.
    pose proof (queued_inv_loop_done l p now st H) as H2.
    destruct (Array_sort _ _) as [q|] eqn:Hsort; [|done].
    apply Array_sort_perm in Hsort.
    assert (queued_inv (stored l p now st q)) as H4.
    { unfold queued_inv in *. intros r Hr. unfold stored in *. fields.
      rewrite Hsort. by apply H2. }
    destruct (isProcessing st); [done|].
    pose proof (queued_inv_processBatches _ H4).
    by destruct (processBatches _).
  - done.
  - unfold fetches_settled. destruct (activations st !! n) as [[b|]|]; try done.
    unfold queued_inv in *. intros r. fields. intros Hr.
    destruct (decide (b = r)) as [->|Hne].
    + by apply status_of_alter_same in Hr.
    + rewrite status_of_alter_ne in Hr by done. by apply H.
  - unfold cooldown_elapsed. destruct (activations st !! n) as [[b|]|]; try done.
    pose proof (queued_inv_loop_head st H) as H1.
    by destruct (loop_head st) as [[st1 [a|]] acts].
Qed.

Lemma queued_inv_run_from st evs : queued_inv st → queued_inv (run_from st evs).
Proof.
  intros H. induction evs as [|e evs IH] using rev_ind; [done|].
  rewrite run_from_snoc. by apply queued_inv_step.
Qed.

Lemma queued_inv_run evs : queued_inv (run evs).
Proof. apply (queued_inv_run_from initial evs). by intros [|r] ?. Qed.

(** X3.  No batch is lost or queued twice.  In every reachable state the
    queue holds every batch object whose status is yet_to_start, holds
    nothing else, and holds each of them once. *)
Theorem X3_queue_holds_the_waiting_batches (evs : list event) :
  NoDup (processingQueue (run evs))
  ∧ ∀ r, r ∈ processingQueue (run evs)
         ↔ status_of (heap (run evs)) r = Some yet_to_start.
Proof.
  destruct (run_inv evs) as [Hd _]. split; [apply (di_queue_nodup _ Hd)|].
  intros r. split; [apply (di_queue_fresh _ Hd)|apply queued_inv_run].
Qed.

(** ** Batch sizes *)

Lemma kth_batch_size l p now u0 n k :
  (k < batch_count (length l))%nat →
  (1 ≤ length (ids (kth_batch l p now u0 0 n k)) ≤ 3)%nat.
Proof.
  intros Hk. pose proof (batch_count_bounds (length l)) as [_ Hhi].
  simpl. unfold slice. rewrite length_take, length_drop. lia.
Qed.

Lemma step_new_batches st e :
  ∃ new, frozen <$> heap (step st e).1 = (frozen <$> heap st) ++ (frozen <$> new)
         ∧ ∀ b, b ∈ new → (1 ≤ length (ids b) ≤ 3)%nat.
Proof.
  destruct e as [ids p now|k|n|n]; [rewrite step_ingest|..]; cbn [step fst].
  - eexists. split; [apply ingest_frozen|].
    intros b (k & -> & Hk%elem_of_seq)%list_elem_of_fmap.
    apply kth_batch_size. destruct ((ingest ids p now st).1.2); lia.
  - exists []. split; [by rewrite app_nil_r|by intros b ?%elem_of_nil].
  - exists []. split; [by rewrite fetches_settled_frozen, app_nil_r|].
    by intros b ?%elem_of_nil.
  - exists []. split; [by rewrite cooldown_elapsed_frozen, app_nil_r|].
    by intros b ?%elem_of_nil.
Qed.

Lemma sizes_inv_step st e : sizes_inv st → sizes_inv (step st e).1.
Proof.
  intros H b' Hb'. destruct (step_new_batches st e) as (new & Heq & Hnew).
  apply (list_elem_of_fmap_2 frozen) in Hb'. rewrite Heq in Hb'.
  apply elem_of_app in Hb' as [Hb|Hb];
    apply list_elem_of_fmap in Hb as (b & Hf & Hb); injection Hf as _ -> _ _; auto.
Qed.

(** X4.  In every reachable state every batch object holds one, two or
    three identifiers, so no batch is ever dispatched with nothing to
    fetch. *)
Theorem X4_batches_hold_one_to_three_ids (evs : list event) :
  ∀ b, b ∈ heap (run evs) → (1 ≤ length (ids b) ≤ 3)%nat.
Proof.
  induction evs as [|e evs IH] using rev_ind; [by intros b ?%elem_of_nil|].
  rewrite run_snoc. by apply sizes_inv_step.
Qed.

Lemma X4_batches_hold_one_to_three_ids_witness :
  (1 ≤ length (ids (Batch 2 [JStr "d"] yet_to_start (JStr "MEDIUM") 0)) ≤ 3)%nat.
Proof.
  apply (X4_batches_hold_one_to_three_ids
           [PostIngest (Some (JArr four_ids)) None (λ _, 0)]).
  replace (heap (run [PostIngest (Some (JArr four_ids)) None (λ _, 0)]))
    with [Batch 1 [JStr "a"; JStr "b"; JStr "c"] triggered (JStr "MEDIUM") 0;
          Batch 2 [JStr "d"] yet_to_start (JStr "MEDIUM") 0] by (by vm_compute).
  right. left.
Defined.

(** ** Draining the queue *)

Lemma run_from_app st evs evs' :
  run_from st (evs ++ evs') = run_from (run_from st evs) evs'.
Proof. unfold run_from. by rewrite fold_left_app. Qed.

Lemma running_activation st :
  control_inv st → isProcessing st = true → ∃ a, activations st = [a].
Proof.
  intros Hc Hflag. pose proof (ci_single _ Hc) as Hlen.
  apply (ci_flag _ Hc) in Hflag.
  destruct (activations st) as [|a [|]]; [done|by exists a|simpl in Hlen; lia].
Qed.

Lemma idle_activations st :
  control_inv st → isProcessing st = false → activations st = [].
Proof.
  intros Hc Hflag. destruct (activations st) eqn:Ha; [done|].
  assert (isProcessing st = true) by (apply (ci_flag _ Hc); by rewrite Ha).
  congruence.
Qed.

Lemma drain_rounds_idle st k :
  activations st = [] → run_from st (drain_rounds k) = st.
Proof.
  intros Ha. induction k as [|k IH]; [done|].
  cbn [drain_rounds]. rewrite run_from_app.
  assert (run_from st drain_round = st) as ->; [|done].
  unfold run_from, drain_round. cbn [fold_left step fst].
  unfold fetches_settled. rewrite Ha. cbn [lookup list_lookup fst].
  unfold cooldown_elapsed. by rewrite Ha.
Qed.

(** One round with a live loop: either the loop goes on with one queued
    batch less, or the queue was empty and the loop has ended. *)
Lemma drain_round_progress st :
  control_inv st → isProcessing st = true →
  (isProcessing (run_from st drain_round) = true
   ∧ S (length (processingQueue (run_from st drain_round)))
     = length (processingQueue st))
  ∨ (isProcessing (run_from st drain_round) = false
     ∧ processingQueue (run_from st drain_round) = []).
Proof.
  intros Hc Hflag. destruct (running_activation st Hc Hflag) as [a Ha].
  unfold run_from, drain_round. cbn [fold_left step fst].
  assert (∃ st1, (fetches_settled 0 st).1 = st1
                 ∧ activations st1 = [AwaitCooldown]
                 ∧ processingQueue st1 = processingQueue st
                 ∧ isProcessing st1 = true) as (st1 & -> & Ha1 & Hq1 & Hf1).
  { unfold fetches_settled. rewrite Ha. destruct a as [b|]; eexists; split; try done.
    fields. by rewrite Ha. }
  unfold cooldown_elapsed. rewrite Ha1. cbn [lookup list_lookup].
  unfold loop_head. rewrite <- Hq1.
  destruct (processingQueue st1) as [|b rest] eqn:Hq; cbn [fst]; fields;
    [right; by rewrite Hq|left].
  by rewrite Hf1.
Qed.

Lemma drain_to_idle n : ∀ st,
  data_inv st → control_inv st →
  (length (processingQueue st) ≤ n)%nat →
  isProcessing st = true ∨ processingQueue st = [] →
  processingQueue (run_from st (drain_rounds (S n))) = []
  ∧ isProcessing (run_from st (drain_rounds (S n))) = false.
Proof.
  induction n as [|n IH]; intros st Hd Hc Hlen Hstart.
  - destruct (isProcessing st) eqn:Hflag.
    + cbn [drain_rounds]. rewrite run_from_app. cbn [drain_rounds run_from fold_left].
      fold (run_from st drain_round).
      destruct (drain_round_progress st Hc Hflag) as [[_ Hq]|[? ?]]; [lia|done].
    + rewrite drain_rounds_idle by (by apply idle_activations).
      destruct Hstart as [|Hq]; [done|]. done.
  - destruct (isProcessing st) eqn:Hflag.
    + change (drain_rounds (S (S n))) with (drain_round ++ drain_rounds (S n)).
      rewrite run_from_app.
      destruct (run_from_inv st drain_round Hd Hc) as [Hd1 Hc1].
      destruct (drain_round_progress st Hc Hflag) as [[Hf1 Hq1]|[Hf1 Hq1]].
      * apply IH; [done..|lia|by left].
      * apply IH; [done..|rewrite Hq1; simpl; lia|by right].
    + rewrite drain_rounds_idle by (by apply idle_activations).
      destruct Hstart as [|Hq]; [done|]. done.
Qed.

Lemma idle_empty_is_drained st :
  data_inv st → control_inv st → queued_inv st →
  processingQueue st = [] → isProcessing st = false → drained st.
Proof.
  intros Hd Hc Hqd Hq Hflag.
  pose proof (idle_activations st Hc Hflag) as Ha.
  assert (∀ r b, heap st !! r = Some b → batch_status b = completed) as Hall.
  { intros r b Hb. destruct (batch_status b) eqn:Hs; [| |done].
    - assert (r ∈ processingQueue st) as Hin.
      { apply Hqd. unfold status_of. rewrite Hb. simpl. by rewrite Hs. }
      rewrite Hq in Hin. by apply elem_of_nil in Hin.
    - assert (AwaitFetch r ∈ activations st) as Hin.
      { apply (ci_inflight _ Hc). unfold status_of. rewrite Hb. simpl. by rewrite Hs. }
      rewrite Ha in Hin. by apply elem_of_nil in Hin. }
  repeat split; try done.
  - intros b [r Hr]%list_elem_of_lookup. by eapply Hall.
  - intros k d Hin Hne. rewrite (di_status _ Hd k d Hin Hne).
    unfold overall_status.
    assert (forallb (has_status (heap st) completed) (batches d) = true) as ->; [|done].
    apply forallb_has_status. intros r Hr.
    assert (r < length (heap st))%nat as [b Hb]%lookup_lt_is_Some.
    { apply (di_store_refs _ Hd). by eapply elem_of_all_refs. }
    unfold status_of. rewrite Hb. simpl. by rewrite (Hall r b Hb).
Qed.

(** X5.  The queue drains.  From a reachable state in which the loop is
    running (or the queue is empty), if no further request arrives and the
    fetches and the timer of the loop complete [k] times in turn, with [k]
    more than the number of queued batches, then the queue is empty, the
    loop has ended, every batch is completed and every stored ingestion that
    has batches is completed. *)
Theorem X5_queue_drains (evs : list event) (k : nat) :
  isProcessing (run evs) = true ∨ processingQueue (run evs) = [] →
  (length (processingQueue (run evs)) < k)%nat →
  drained (run_from (run evs) (drain_rounds k)).
Proof.
  intros Hstart Hk. destruct (run_inv evs) as [Hd Hc].
  destruct k as [|n]; [lia|].
  destruct (drain_to_idle n (run evs) Hd Hc) as [Hq Hf]; [lia|done|].
  destruct (run_from_inv (run evs) (drain_rounds (S n)) Hd Hc) as [Hd1 Hc1].
  apply idle_empty_is_drained; [done..| |done|done].
  apply queued_inv_run_from, queued_inv_run.
Qed.

Lemma X5_queue_drains_witness :
  drained (run_from (run [seven_ids]) (drain_rounds 3)).
Proof.
  apply (X5_queue_drains [seven_ids] 3).
  - left. by vm_compute.
  - vm_compute. lia.
Defined.

(** ** An idle loop and a queue that cannot be sorted *)

Lemma key_throws_frozen (h h' : list batch) r :
  frozen <$> h = frozen <$> h' → key_throws h r = key_throws h' r.
Proof.
  intros Heq. unfold key_throws.
  destruct (h' !! r) as [b'|] eqn:Hb'.
  - destruct (frozen_lookup h h' r b' Heq Hb') as (b & -> & Hf).
    injection Hf as _ _ -> _. done.
  - destruct (h !! r) as [b|] eqn:Hb; [|done].
    destruct (frozen_lookup h' h r b (eq_sym Heq) Hb) as (? & ? & _). congruence.
Qed.

Lemma sort_would_throw_loop_done l p now st :
  data_inv st → sort_would_throw st → sort_would_throw (loop_done l p now st).
Proof.
  intros Hd [Hlen (r & Hr & Hbad)]. split.
  - unfold loop_done. fields. rewrite length_app. lia.
  - exists r. split.
    + unfold loop_done. fields. apply elem_of_app. by left.
    + rewrite key_throws_loop_done_old; [done|].
      eapply status_of_valid, (di_queue_fresh _ Hd), Hr.
Qed.

Lemma throws_when_sort_would_throw l p now st :
  data_inv st → sort_would_throw st →
  (ingest (Some (JArr l)) p now st).1.2 = Threw
  ∧ (ingest (Some (JArr l)) p now st).1.1 = loop_done l p now st.
Proof.
  intros Hd Hw. apply (sort_would_throw_loop_done l p now) in Hw; [|done].
  pose proof (ingest_outcome l p now st) as [Hiff _].
  assert ((ingest (Some (JArr l)) p now st).1.2 = Threw) as Hthrew by (by apply Hiff).
  split; [done|]. revert Hthrew. rewrite ingest_cases.
  destruct (Array_sort _ _); [|done].
  by destruct (if isProcessing st then _ else _).
Qed.

Lemma idle_queue_step st e :
  data_inv st → control_inv st →
  (isProcessing st = false → processingQueue st = [] ∨ sort_would_throw st) →
  isProcessing (step st e).1 = false →
  processingQueue (step st e).1 = [] ∨ sort_would_throw (step st e).1.
Proof.
  intros Hd Hc Hidle.
  destruct e as [ids p now|k|n|n]; [rewrite step_ingest|..]; cbn [step fst].
  - destruct (array_or_not ids) as [[l ->]|Hno]; [|by rewrite ingest_not_array].
    pose proof (ingest_outcome l p now st) as [Hiff _].
    rewrite ingest_cases in Hiff |- *.
    destruct (Array_sort _ _) as [q|] eqn:Hsort.
    + destruct (isProcessing st) eqn:Hflag.
      * cbn [fst]. unfold stored, loop_done. fields. by rewrite Hflag.
      * unfold processBatches, loop_head, stored. fields.
        destruct q as [|b rest]; cbn [fst]; fields; [by left|done].
    + intros _. right. by apply Hiff.
  - done.
  - unfold fetches_settled.
    destruct (activations st !! n) as [[b|]|] eqn:Hn; try done.
    fields. intros Hflag.
    assert (activations st = []) as Ha by (by apply idle_activations).
    by rewrite Ha in Hn.
  - unfold cooldown_elapsed.
    destruct (activations st !! n) as [[b|]|] eqn:Hn; try done.
    unfold loop_head.
    destruct (processingQueue st) as [|b rest] eqn:Hq; fields; [by left|].
    intros Hflag.
    assert (activations st = []) as Ha by (by apply idle_activations).
    by rewrite Ha in Hn.
Qed.

Lemma idle_queue_run evs :
  isProcessing (run evs) = false →
  processingQueue (run evs) = [] ∨ sort_would_throw (run evs).
Proof.
  induction evs as [|e evs IH] using rev_ind; [by left|].
  rewrite run_snoc. destruct (run_inv evs). by apply idle_queue_step.
Qed.

(** X6.  No work waits behind an idle loop, unless it is stuck.  In every
    reachable state in which no loop is running, the queue is empty, or else
    it holds at least two batches one of which has a priority that cannot be
    converted to a property key. *)
Theorem X6_idle_loop_means_empty_or_stuck_queue (evs : list event) :
  isProcessing (run evs) = false →
  processingQueue (run evs) = [] ∨ sort_would_throw (run evs).
Proof. apply idle_queue_run. Qed.

Lemma X6_idle_loop_means_empty_or_stuck_queue_witness :
  processingQueue (run [poison]) = [] ∨ sort_would_throw (run [poison]).
Proof.
  apply (X6_idle_loop_means_empty_or_stuck_queue [poison]). by vm_compute.
Defined.

Lemma stuck_step st e :
  data_inv st → control_inv st →
  isProcessing st = false → sort_would_throw st →
  isProcessing (step st e).1 = false ∧ sort_would_throw (step st e).1
  ∧ ∀ r, r ∈ processingQueue st →
         r ∈ processingQueue (step st e).1
         ∧ status_of (heap (step st e).1) r = Some yet_to_start.
Proof.
  intros Hd Hc Hflag Hw.
  pose proof (idle_activations st Hc Hflag) as Ha.
  pose proof (di_queue_fresh _ Hd) as Hfresh.
  assert (isProcessing st = false ∧ sort_would_throw st
          ∧ ∀ r, r ∈ processingQueue st →
                 r ∈ processingQueue st
                 ∧ status_of (heap st) r = Some yet_to_start) as Hsame.
  { split; [done|]. split; [done|]. intros r Hr. split; [done|]. by apply Hfresh. }
  destruct e as [ids p now|k|n|n]; [rewrite step_ingest|..]; cbn [step fst].
  - destruct (array_or_not ids) as [[l ->]|Hno]; [|by rewrite ingest_not_array].
    destruct (throws_when_sort_would_throw l p now st Hd Hw) as [_ ->].
    split; [done|]. split; [by apply sort_would_throw_loop_done|].
    intros r Hr. unfold loop_done. fields. split; [apply elem_of_app; by left|].
    rewrite status_of_app_l; [auto|]. by eapply status_of_valid, Hfresh.
  - done.
  - unfold fetches_settled. by rewrite Ha.
  - unfold cooldown_elapsed. by rewrite Ha.
Qed.

Lemma stuck_run_from st evs :
  data_inv st → control_inv st →
  isProcessing st = false → sort_would_throw st →
  isProcessing (run_from st evs) = false ∧ sort_would_throw (run_from st evs)
  ∧ ∀ r, r ∈ processingQueue st →
         r ∈ processingQueue (run_from st evs)
         ∧ status_of (heap (run_from st evs)) r = Some yet_to_start.
Proof.
  intros Hd Hc Hflag Hw. induction evs as [|e evs IH] using rev_ind.
  { split; [done|]. split; [done|]. intros r Hr. split; [done|].
    by apply (di_queue_fresh _ Hd). }
  destruct IH as (Hf1 & Hw1 & Hq1).
  destruct (run_from_inv st evs Hd Hc) as [Hd1 Hc1].
  rewrite run_from_snoc.
  destruct (stuck_step _ e Hd1 Hc1 Hf1 Hw1) as (Hf2 & Hw2 & Hq2).
  split; [done|]. split; [done|]. intros r Hr. apply Hq2. by apply Hq1.
Qed.

(** X7.  A stuck queue stays stuck.  If in a reachable state no loop is
    running and the queue is not empty, then after any further events no
    loop is running, every request whose [ids] is an array is answered with
    500, and every batch that was queued is still queued with the status
    yet_to_start. *)
Theorem X7_stuck_queue_is_never_served (evs evs' : list event) :
  isProcessing (run evs) = false → processingQueue (run evs) ≠ [] →
  isProcessing (run_from (run evs) evs') = false
  ∧ (∀ l p now,
       (ingest (Some (JArr l)) p now (run_from (run evs) evs')).1.2 = Threw
       ∧ (ingest (Some (JArr l)) p now (run_from (run evs) evs')).2 = [Respond 500])
  ∧ (∀ r, r ∈ processingQueue (run evs) →
          r ∈ processingQueue (run_from (run evs) evs')
          ∧ status_of (heap (run_from (run evs) evs')) r = Some yet_to_start).
Proof.
  intros Hflag Hne. destruct (run_inv evs) as [Hd Hc].
  destruct (idle_queue_run evs Hflag) as [|Hw]; [done|].
  destruct (stuck_run_from _ evs' Hd Hc Hflag Hw) as (Hf1 & Hw1 & Hq1).
  destruct (run_from_inv _ evs' Hd Hc) as [Hd1 Hc1].
  split; [done|]. split; [|done].
  intros l p now.
  destruct (throws_when_sort_would_throw l p now _ Hd1 Hw1) as [Hthrew _].
  split; [done|]. revert Hthrew. rewrite ingest_cases.
  destruct (Array_sort _ _); [|done].
  by destruct (if isProcessing _ then _ else _).
Qed.

Lemma X7_stuck_queue_is_never_served_witness :
  isProcessing (run_from (run [poison]) [one_id; FetchesSettled 0]) = false
  ∧ (∀ l p now,
       (ingest (Some (JArr l)) p now
          (run_from (run [poison]) [one_id; FetchesSettled 0])).1.2 = Threw
       ∧ (ingest (Some (JArr l)) p now
            (run_from (run [poison]) [one_id; FetchesSettled 0])).2 = [Respond 500])
  ∧ (∀ r, r ∈ processingQueue (run [poison]) →
          r ∈ processingQueue (run_from (run [poison]) [one_id; FetchesSettled 0])
          ∧ status_of (heap (run_from (run [poison]) [one_id; FetchesSettled 0])) r
            = Some yet_to_start).
Proof.
  apply (X7_stuck_queue_is_never_served [poison] [one_id; FetchesSettled 0]).
  - by vm_compute.
  - by vm_compute.
Defined.

(** ** Requests that throw *)

Lemma all_refs_publish r s st :
  data_inv st → (r < length (heap st))%nat →
  all_refs (ingestionStore (updateIngestionStatus r (assign_status r s st)))
  = all_refs (ingestionStore st).
Proof.
  intros Hd Hr. fields. rewrite update_entries_refresh.
  - apply refresh_refs.
  - by rewrite length_alter.
  - rewrite batch_id_alter_status. apply (di_batch_ids _ Hd).
  - apply (di_store_nodup _ Hd).
Qed.

Lemma all_refs_loop_head st :
  data_inv st →
  all_refs (ingestionStore (loop_head st).1.1) = all_refs (ingestionStore st).
Proof.
  intros Hd. unfold loop_head.
  destruct (processingQueue st) as [|b rest] eqn:Hq; [done|].
  cbn [fst].
  rewrite (all_refs_publish b triggered (set_processingQueue rest st)); [done| |].
  - apply data_inv_set_processingQueue; [done| |].
    + pose proof (di_queue_nodup _ Hd) as Hnd. rewrite Hq in Hnd.
      by apply NoDup_cons in Hnd as [_ ?].
    + intros r Hr. rewrite Hq. by right.
  - fields. eapply status_of_valid, (di_queue_fresh _ Hd). rewrite Hq. by left.
Qed.

Lemma step_all_refs st e r :
  data_inv st → control_inv st →
  r ∈ all_refs (ingestionStore (step st e).1) →
  r ∈ all_refs (ingestionStore st) ∨ (length (heap st) ≤ r)%nat.
Proof.
  intros Hd Hc.
  destruct e as [ids p now|k|n|n]; [rewrite step_ingest|..]; cbn [step fst].
  - destruct (array_or_not ids) as [[l ->]|Hno];
      [|rewrite ingest_not_array by done; by left].
    rewrite ingest_cases.
    destruct (Array_sort _ _) as [q|] eqn:Hsort; [|by left].
    assert (r ∈ all_refs (ingestionStore (stored l p now st q)) →
            r ∈ all_refs (ingestionStore st) ∨ (length (heap st) ≤ r)%nat) as H4.
    { unfold stored, loop_done. fields.
      rewrite Map_set_fresh, all_refs_snoc.
      - intros [?|Hr%elem_of_seq]%elem_of_app; [by left|right; lia].
      - intros Hin%(di_store_bound _ Hd). lia. }
    destruct (isProcessing st); [done|].
    unfold processBatches.
    pose proof (all_refs_loop_head (set_isProcessing true (stored l p now st q))
                  (data_inv_set_isProcessing _ _ (data_inv_stored l p now st q Hd Hsort)))
      as Heq.
    destruct (loop_head _) as [[st1 [a|]] acts]; cbn [fst] in *; fields;
      by rewrite Heq.
  - by left.
  - unfold fetches_settled.
    destruct (activations st !! n) as [[b|]|] eqn:Hn; try by left.
    assert (b < length (heap st))%nat as Hb.
    { eapply status_of_valid, (ci_inflight _ Hc). by eapply list_elem_of_lookup_2. }
    pose proof (all_refs_publish b completed st Hd Hb) as Heq.
    cbn [fst]. fields. rewrite Heq. by left.
  - unfold cooldown_elapsed.
    destruct (activations st !! n) as [[b|]|] eqn:Hn; try by left.
    pose proof (all_refs_loop_head st Hd) as Heq.
    destruct (loop_head st) as [[st1 [a|]] acts]; cbn [fst] in *; fields;
      rewrite Heq; by left.
Qed.

Lemma unowned_run_from st evs r :
  data_inv st → control_inv st →
  (r < length (heap st))%nat → r ∉ all_refs (ingestionStore st) →
  (r < length (heap (run_from st evs)))%nat
  ∧ r ∉ all_refs (ingestionStore (run_from st evs)).
Proof.
  intros Hd Hc Hr Hn. induction evs as [|e evs IH] using rev_ind; [done|].
  destruct IH as [Hr1 Hn1]. destruct (run_from_inv st evs Hd Hc) as [Hd1 Hc1].
  rewrite run_from_snoc. split.
  - apply lookup_lt_is_Some in Hr1 as [b Hb].
    destruct (step_advance _ e Hd1 Hc1 r b Hb) as (b' & Hb' & _).
    by eapply lookup_lt_Some.
  - intros [?|?]%step_all_refs; [done|lia|done|done].
Qed.

(** X8.  A request that is answered with 500 has still enqueued its
    batches.  When the sort throws in a reachable state, the store, the
    activations and the flag are as before, the new batches stand at the end
    of the queue in creation order, and no stored ingestion ever holds one
    of them, so they can never be seen through a status query. *)
Theorem X8_thrown_request_leaves_unowned_batches (evs : list event) (l : list json)
    (p : option json) (now : nat → Z) (evs' : list event) :
  (ingest (Some (JArr l)) p now (run evs)).1.2 = Threw →
  (ingest (Some (JArr l)) p now (run evs)).2 = [Respond 500]
  ∧ ingestionStore (ingest (Some (JArr l)) p now (run evs)).1.1
    = ingestionStore (run evs)
  ∧ processingQueue (ingest (Some (JArr l)) p now (run evs)).1.1
    = processingQueue (run evs) ++ new_refs l (run evs)
  ∧ activations (ingest (Some (JArr l)) p now (run evs)).1.1 = activations (run evs)
  ∧ isProcessing (ingest (Some (JArr l)) p now (run evs)).1.1 = isProcessing (run evs)
  ∧ ∀ r, r ∈ new_refs l (run evs) →
         r ∉ all_refs (ingestionStore
                         (run_from (ingest (Some (JArr l)) p now (run evs)).1.1 evs')).
Proof.
  intros Hthrew. destruct (run_inv evs) as [Hd Hc].
  pose proof (step_inv (run evs) (PostIngest (Some (JArr l)) p now) Hd Hc) as [Hd1 Hc1].
  rewrite step_ingest in Hd1, Hc1. cbn [fst] in Hd1, Hc1.
  assert ((ingest (Some (JArr l)) p now (run evs)).1.1 = loop_done l p now (run evs)
          ∧ (ingest (Some (JArr l)) p now (run evs)).2 = [Respond 500]) as [Heq Hresp].
  { revert Hthrew. rewrite ingest_cases. destruct (Array_sort _ _); [|done].
    by destruct (if isProcessing _ then _ else _). }
  split; [done|]. rewrite Heq in *.
  split; [done|]. split; [done|]. split; [done|]. split; [done|].
  intros r Hr%elem_of_seq.
  apply (unowned_run_from _ evs' r Hd1 Hc1).
  - unfold loop_done. fields. rewrite length_app, length_fmap, length_seq. lia.
  - unfold loop_done. fields. intros Hin%(di_store_refs _ Hd). lia.
Qed.

Lemma X8_thrown_request_leaves_unowned_batches_witness :
  (ingest (Some (JArr four_ids)) (Some poisoned_priority) (λ _, 0) (run [])).2
  = [Respond 500]
  ∧ ingestionStore (ingest (Some (JArr four_ids)) (Some poisoned_priority) (λ _, 0)
                      (run [])).1.1
    = ingestionStore (run [])
  ∧ processingQueue (ingest (Some (JArr four_ids)) (Some poisoned_priority) (λ _, 0)
                       (run [])).1.1
    = processingQueue (run []) ++ new_refs four_ids (run [])
  ∧ activations (ingest (Some (JArr four_ids)) (Some poisoned_priority) (λ _, 0)
                   (run [])).1.1 = activations (run [])
  ∧ isProcessing (ingest (Some (JArr four_ids)) (Some poisoned_priority) (λ _, 0)
                    (run [])).1.1 = isProcessing (run [])
  ∧ ∀ r, r ∈ new_refs four_ids (run []) →
         r ∉ all_refs (ingestionStore
                         (run_from (ingest (Some (JArr four_ids)) (Some poisoned_priority)
                                      (λ _, 0) (run [])).1.1 [one_id])).
Proof.
  apply (X8_thrown_request_leaves_unowned_batches [] four_ids (Some poisoned_priority)
           (λ _, 0) [one_id]).
  by vm_compute.
Defined.

(** ** A request that finds the loop idle *)

(** X9.  When a request with at least one identifier is accepted in a
    reachable state in which no loop is running, the queue was empty, the
    handler starts the loop and, before it answers, dispatches one of the
    request's own batches: that batch is triggered and its fetches are
    awaited when the response is sent. *)
Theorem X9_idle_request_dispatches_own_batch (evs : list event) (l : list json)
    (p : option json) (now : nat → Z) (id : uuid) :
  isProcessing (run evs) = false → l ≠ [] →
  (ingest (Some (JArr l)) p now (run evs)).1.2 = Accepted id →
  processingQueue (run evs) = []
  ∧ ∃ b acts,
      b ∈ new_refs l (run evs)
      ∧ (ingest (Some (JArr l)) p now (run evs)).2
        = Shift b :: Publish b triggered :: acts ++ [Respond 200]
      ∧ activations (ingest (Some (JArr l)) p now (run evs)).1.1 = [AwaitFetch b]
      ∧ isProcessing (ingest (Some (JArr l)) p now (run evs)).1.1 = true
      ∧ status_of (heap (ingest (Some (JArr l)) p now (run evs)).1.1) b
        = Some triggered.
Proof.
  intros Hflag Hl Hacc. destruct (run_inv evs) as [Hd Hc].
  assert (processingQueue (run evs) = []) as Hq.
  { destruct (idle_queue_run evs Hflag) as [|Hw]; [done|].
    destruct (throws_when_sort_would_throw l p now _ Hd Hw) as [Hthrew _].
    congruence. }
  split; [done|].
  pose proof (idle_activations _ Hc Hflag) as Ha.
  pose proof (step_inv (run evs) (PostIngest (Some (JArr l)) p now) Hd Hc) as [_ Hc1].
  rewrite step_ingest in Hc1. cbn [fst] in Hc1.
  revert Hacc Hc1. rewrite ingest_cases.
  destruct (Array_sort _ _) as [q|] eqn:Hsort; [|done].
  apply Array_sort_perm in Hsort.
  assert (processingQueue (loop_done l p now (run evs)) = new_refs l (run evs)) as Hnew.
  { unfold loop_done. fields. by rewrite Hq. }
  rewrite Hnew in Hsort. rewrite Hflag.
  unfold processBatches, loop_head, stored. fields.
  destruct q as [|b rest].
  { apply Permutation_nil_l in Hsort. symmetry in Hsort.
    by apply new_refs_nil in Hsort. }
  cbn [fst snd]. fields. intros _ Hc1.
  exists b. eexists. split; [rewrite <- Hsort; by left|].
  split; [done|]. unfold loop_done. fields. rewrite Ha. split; [done|]. split; [done|].
  apply (ci_inflight _ Hc1). fields. unfold loop_done. fields. rewrite Ha. by left.
Qed.

Lemma X9_idle_request_dispatches_own_batch_witness :
  processingQueue (run []) = []
  ∧ ∃ b acts,
      b ∈ new_refs four_ids (run [])
      ∧ (ingest (Some (JArr four_ids)) None (λ _, 0) (run [])).2
        = Shift b :: Publish b triggered :: acts ++ [Respond 200]
      ∧ activations (ingest (Some (JArr four_ids)) None (λ _, 0) (run [])).1.1
        = [AwaitFetch b]
      ∧ isProcessing (ingest (Some (JArr four_ids)) None (λ _, 0) (run [])).1.1 = true
      ∧ status_of (heap (ingest (Some (JArr four_ids)) None (λ _, 0) (run [])).1.1) b
        = Some triggered.
Proof.
  apply (X9_idle_request_dispatches_own_batch [] four_ids None (λ _, 0) 0%nat).
  - by vm_compute.
  - discriminate.
  - by vm_compute.
Defined.

(** ** Responses *)

Lemma loop_head_no_respond st a : a ∈ (loop_head st).2 → is_respond a = false.
Proof.
  unfold loop_head. destruct (processingQueue st) as [|b rest]; cbn [snd].
  - by intros ?%elem_of_nil.
  - intros [->|[->|Hin]%elem_of_cons]%elem_of_cons; [done..|].
    by apply list_elem_of_fmap in Hin as (? & -> & _).
Qed.

(** X10.  The [/ingest] handler answers every request exactly once, as its
    last action, with 400, 500 or 200 according to the outcome; a rejected
    request changes nothing at all. *)
Theorem X10_ingest_answers_once (ids p : option json) (now : nat → Z) (st : state) :
  (∃ pre, (ingest ids p now st).2
          = pre ++ [Respond (outcome_code (ingest ids p now st).1.2)]
          ∧ ∀ a, a ∈ pre → is_respond a = false)
  ∧ ((ingest ids p now st).1.2 = Rejected → (ingest ids p now st).1.1 = st).
Proof.
  destruct (array_or_not ids) as [[l ->]|Hno]; last first.
  { rewrite ingest_not_array by done. split; [|done].
    exists []. split; [done|by intros a ?%elem_of_nil]. }
  rewrite ingest_cases. destruct (Array_sort _ _) as [q|].
  - destruct (isProcessing st).
    + cbn. split; [|done]. exists []. split; [done|by intros a ?%elem_of_nil].
    + unfold processBatches.
      pose proof (loop_head_no_respond (set_isProcessing true (stored l p now st q))) as H.
      destruct (loop_head _) as [[st1 a] acts]. cbn in *. split; [|done].
      by exists acts.
  - cbn. split; [|done]. exists []. split; [done|by intros a ?%elem_of_nil].
Qed.

(** ** The comparator *)

(** X11.  Only the property keys HIGH, MEDIUM and LOW have a priority rank,
    and the ranks are 0, 1 and 2: members that [PRIORITY_VALUES] inherits
    from [Object.prototype] are not ranks. *)
Theorem X11_rank_is_one_of_three (p : json) (z : Z) :
  rank p = Some z
  ↔ (ToPropertyKey p = Some "HIGH"%string ∧ z = 0)
    ∨ (ToPropertyKey p = Some "MEDIUM"%string ∧ z = 1)
    ∨ (ToPropertyKey p = Some "LOW"%string ∧ z = 2).
Proof.
  unfold rank. destruct (ToPropertyKey p) as [k|]; last first.
  { split; [done|]. by intros [[? _]|[[? _]|[? _]]]. }
  destruct (decide (k = "HIGH"%string)) as [->|H1].
  { cbn. split; [intros [= <-]; by left|].
    intros [[_ ->]|[[[=] _]|[[=] _]]]. done. }
  destruct (decide (k = "MEDIUM"%string)) as [->|H2].
  { cbn. split; [intros [= <-]; right; by left|].
    intros [[[=] _]|[[_ ->]|[[=] _]]]. done. }
  destruct (decide (k = "LOW"%string)) as [->|H3].
  { cbn. split; [intros [= <-]; right; by right|].
    intros [[[=] _]|[[[=] _]|[_ ->]]]. done. }
  assert (rank (JStr k) = None) as Hnone by (by apply (rank_outside_table _ k)).
  unfold rank in Hnone. cbn [ToPropertyKey ToString] in Hnone. rewrite Hnone.
  split; [done|]. intros [[[= ?] _]|[[[= ?] _]|[[= ?] _]]]; done.
Qed.

(** X12.  On batches whose priorities have a rank the comparator orders by
    priority rank first and by creation time second: its result is
    negative, zero or positive as the key (rank, created_time) of the first
    batch is before, equal to or after the key of the second, and swapping
    the arguments negates the result. *)
Theorem X12_comparator_orders_by_rank_then_time (a b : batch) (ka kb : Z * Z) :
  batch_key a = Some ka → batch_key b = Some kb →
  ∃ z, compareFn a b = Some (Finite z)
       ∧ compareFn b a = Some (Finite (- z))
       ∧ (z < 0 ↔ key_lt ka kb)
       ∧ (z = 0 ↔ ka = kb)
       ∧ (0 < z ↔ key_lt kb ka).
Proof.
  unfold batch_key, rank, compareFn.
  destruct (ToPropertyKey (priority a)) as [sa|]; [|done].
  destruct (ToPropertyKey (priority b)) as [sb|]; [|done]. simpl.
  destruct (PRIORITY_VALUES_get sa) as [ra| |]; try done.
  destruct (PRIORITY_VALUES_get sb) as [rb| |]; try done.
  intros [= <-] [= <-]. unfold key_lt. simpl.
  destruct (Z.eqb_spec ra rb) as [->|Hne].
  - rewrite Z.eqb_refl. simpl. eexists. split; [done|].
    split; [do 2 f_equal; lia|].
    split; [lia|]. split; [|lia].
    split; [intros ?; f_equal; lia|intros [= ?]; lia].
  - destruct (Z.eqb_spec rb ra) as [?|_]; [lia|]. simpl. eexists. split; [done|].
    split; [do 2 f_equal; lia|].
    split; [lia|]. split; [|lia].
    split; [lia|intros [= ? ?]; lia].
Qed.

Lemma X12_comparator_orders_by_rank_then_time_witness :
  ∃ z, compareFn (Batch 1 [] yet_to_start (JStr "HIGH") 7)
                 (Batch 2 [] yet_to_start (JStr "LOW") 3) = Some (Finite z)
       ∧ compareFn (Batch 2 [] yet_to_start (JStr "LOW") 3)
                   (Batch 1 [] yet_to_start (JStr "HIGH") 7) = Some (Finite (- z))
       ∧ (z < 0 ↔ key_lt (0, 7) (2, 3))
       ∧ (z = 0 ↔ (0, 7) = (2, 3))
       ∧ (0 < z ↔ key_lt (2, 3) (0, 7)).
Proof.
  apply (X12_comparator_orders_by_rank_then_time
           (Batch 1 [] yet_to_start (JStr "HIGH") 7)
           (Batch 2 [] yet_to_start (JStr "LOW") 3) (0, 7) (2, 3));
    by vm_compute.
Defined.

(** X13.  Against a batch whose priority has a rank, a batch whose priority
    has a property key but no rank makes the comparator return [NaN], in
    either order, so the sort takes the two for equal. *)
Theorem X13_unranked_priority_compares_as_NaN (a b : batch) :
  is_Some (rank (priority a)) → rank (priority b) = None →
  is_Some (ToPropertyKey (priority b)) →
  compareFn a b = Some NaN ∧ compareFn b a = Some NaN
  ∧ sorts_after compareFn a b = Some false
  ∧ sorts_after compareFn b a = Some false.
Proof.
  unfold rank, sorts_after, compareFn.
  destruct (ToPropertyKey (priority a)) as [sa|]; [|by intros [? ?]].
  destruct (ToPropertyKey (priority b)) as [sb|]; [|by intros _ _ [? ?]]. simpl.
  destruct (PRIORITY_VALUES_get sa) as [ra| |]; try by intros [? ?].
  by destruct (PRIORITY_VALUES_get sb) as [rb| |].
Qed.

Lemma X13_unranked_priority_compares_as_NaN_witness :
  compareFn (Batch 1 [] yet_to_start (JStr "HIGH") 7)
            (Batch 2 [] yet_to_start (JStr "URGENT") 3) = Some NaN
  ∧ compareFn (Batch 2 [] yet_to_start (JStr "URGENT") 3)
              (Batch 1 [] yet_to_start (JStr "HIGH") 7) = Some NaN
  ∧ sorts_after compareFn (Batch 1 [] yet_to_start (JStr "HIGH") 7)
                          (Batch 2 [] yet_to_start (JStr "URGENT") 3) = Some false
  ∧ sorts_after compareFn (Batch 2 [] yet_to_start (JStr "URGENT") 3)
                          (Batch 1 [] yet_to_start (JStr "HIGH") 7) = Some false.
Proof.
  apply (X13_unranked_priority_compares_as_NaN
           (Batch 1 [] yet_to_start (JStr "HIGH") 7)
           (Batch 2 [] yet_to_start (JStr "URGENT") 3)).
  - by eexists.
  - by vm_compute.
  - by eexists.
Defined.

(** ** Ties are served first in, first out *)

Lemma StronglySorted_impl_elem {A} (R R' : relation A) l :
  (∀ x y, x ∈ l → y ∈ l → R x y → R' x y) →
  StronglySorted R l → StronglySorted R' l.
Proof.
  induction l as [|x l IH]; intros Himpl Hs; [constructor|].
  apply StronglySorted_inv in Hs as [Hl Hx]. constructor.
  - apply IH; [|done]. intros y z Hy Hz. apply Himpl; by right.
  - apply Forall_forall. intros y Hy. apply Himpl; [by left|by right|].
    by eapply Forall_forall in Hx.
Qed.

Lemma StronglySorted_lookup {A} (R : relation A) l i j x y :
  StronglySorted R l → (i < j)%nat → l !! i = Some x → l !! j = Some y → R x y.
Proof.
  intros Hs. revert i j. induction Hs as [|z l Hl IH Hz]; intros i j Hij Hi Hj; [done|].
  destruct j as [|j]; [lia|]. simpl in Hj. destruct i as [|i].
  - injection Hi as ->. eapply Forall_forall; [done|]. by eapply list_elem_of_lookup_2.
  - simpl in Hi. apply (IH i j); [lia|done..].
Qed.

Lemma StronglySorted_seq a m : StronglySorted lt (seq a m).
Proof.
  revert a. induction m as [|m IH]; intros a; [constructor|]. simpl.
  constructor; [apply IH|]. apply Forall_forall. intros y Hy%elem_of_seq. lia.
Qed.

Lemma sort_insert_fifo h x s r :
  (∀ y, y ∈ x :: s → is_Some (sched_key h y)) →
  StronglySorted (fifo_le h) s →
  Forall (tie_ordered h x) s →
  sort_insert (compare_refs h) x s = Some r →
  StronglySorted (fifo_le h) r.
Proof.
  revert r. induction s as [|y s IH]; intros r Hkeys Hsorted Hties; simpl.
  - intros [= <-]. by repeat constructor.
  - destruct (Hkeys x) as [kx Hkx]; [by left|].
    destruct (Hkeys y) as [ky Hky]; [right; by left|].
    rewrite (sorts_after_keyed h x y kx ky) by done. simpl.
    apply StronglySorted_inv in Hsorted as [Hs Hy].
    apply Forall_cons in Hties as [Hxy Hxs].
    case_bool_decide as Hle; simpl.
    + destruct (sort_insert (compare_refs h) x s) as [r'|] eqn:Hins; [|done].
      simpl. intros [= <-]. constructor.
      * eapply IH; [|done|done|done]. intros z [->|Hz]%elem_of_cons; apply Hkeys;
          [by left|right; by right].
      * apply Forall_forall. intros z Hz.
        rewrite (sort_insert_perm _ _ _ _ Hins) in Hz.
        apply elem_of_cons in Hz as [->|Hz]; [|by eapply Forall_forall in Hy].
        split.
        { exists ky, kx. repeat split; [done..|]. by apply key_le_total. }
        rewrite Hkx, Hky. intros [= ->]. destruct Hle. unfold key_le. lia.
    + intros [= <-].
      assert (sched_le h x y) as Hsxy by (by exists kx, ky).
      constructor; [by constructor|].
      constructor; [done|].
      apply Forall_forall. intros z Hz. split.
      * eapply sched_le_trans; [done|]. by eapply Forall_forall in Hy as [? _].
      * by eapply Forall_forall in Hxs.
Qed.

Lemma Array_sort_fifo h l q :
  (∀ y, y ∈ l → is_Some (sched_key h y)) →
  StronglySorted (tie_ordered h) l →
  Array_sort (compare_refs h) l = Some q →
  StronglySorted (fifo_le h) q.
Proof.
  revert q. induction l as [|x l IH]; intros q Hkeys Hties; simpl.
  - intros [= <-]. constructor.
  - destruct (Array_sort (compare_refs h) l) as [s|] eqn:Hs; [|done]. simpl.
    apply StronglySorted_inv in Hties as [Hl Hx].
    pose proof (Array_sort_perm _ _ _ Hs) as Hperm.
    apply sort_insert_fifo.
    + intros y Hy. apply Hkeys. by rewrite <- Hperm.
    + apply IH; [|done|done]. intros; apply Hkeys; by right.
    + by rewrite Hperm.
Qed.

Lemma fifo_frozen (h h' : list batch) q :
  frozen <$> h = frozen <$> h' →
  StronglySorted (fifo_le h) q → StronglySorted (fifo_le h') q.
Proof.
  intros Heq. apply StronglySorted_impl_elem. intros x y _ _ [Hle Htie]. split.
  - by eapply sched_le_frozen.
  - by rewrite <- !(sched_key_frozen h h' _ Heq).
Qed.

Lemma sched_key_loop_done l p now st r :
  (r < length (heap st))%nat →
  sched_key (heap (loop_done l p now st)) r = sched_key (heap st) r.
Proof. intros Hr. unfold sched_key, loop_done. fields. by rewrite lookup_app_l. Qed.

Lemma loop_done_ties l p now st :
  data_inv st → fifo_inv st → all_ranked (heap (loop_done l p now st)) →
  StronglySorted (tie_ordered (heap (loop_done l p now st)))
                 (processingQueue (loop_done l p now st)).
Proof.
  intros Hd Hfifo Hall.
  assert (∀ r, r ∈ processingQueue st → (r < length (heap st))%nat) as Hvalid.
  { intros r Hr. eapply status_of_valid, (di_queue_fresh _ Hd), Hr. }
  assert (all_ranked (heap st)) as Hall0.
  { intros b Hb. apply Hall. unfold loop_done. fields. apply elem_of_app. by left. }
  change (processingQueue (loop_done l p now st))
    with (processingQueue st ++ new_refs l st).
  apply StronglySorted_app_2.
  - intros x y Hx%Hvalid Hy%elem_of_seq _. lia.
  - eapply StronglySorted_impl_elem; [|apply (Hfifo Hall0)].
    intros x y Hx%Hvalid Hy%Hvalid [_ Htie]. unfold tie_ordered.
    by rewrite !sched_key_loop_done.
  - eapply StronglySorted_impl_elem; [|apply StronglySorted_seq].
    by intros x y _ _ Hlt _.
Qed.

Lemma loop_head_fifo st :
  StronglySorted (fifo_le (heap st)) (processingQueue st) →
  StronglySorted (fifo_le (heap (loop_head st).1.1))
                 (processingQueue (loop_head st).1.1).
Proof.
  intros Hs. apply (fifo_frozen (heap st)); [by rewrite loop_head_frozen|].
  unfold loop_head. destruct (processingQueue st) as [|b rest] eqn:Hq.
  - fields. by rewrite Hq.
  - fields. by apply StronglySorted_inv in Hs as [? _].
Qed.

Lemma fifo_inv_step st e : data_inv st → fifo_inv st → fifo_inv (step st e).1.
Proof.
  intros Hd Hs. destruct e as [ids p now|k|n|n];
    [rewrite step_ingest|..]; cbn [step fst].
  - destruct (array_or_not ids) as [[l ->]|Hno]; [|by rewrite ingest_not_array].
    intros Hall.
    assert (all_ranked (heap (loop_done l p now st))) as Hall2.
    { revert Hall. apply all_ranked_frozen. rewrite ingest_frozen.
      unfold loop_done. fields. rewrite fmap_app.
      destruct (ingest_outcome l p now st) as [_ [-> | ->]]; done. }
    destruct (ranked_sort l p now st Hd Hall2) as (q & Hsort & _).
    assert (StronglySorted (fifo_le (heap (loop_done l p now st))) q) as Hq.
    { eapply Array_sort_fifo; [|by apply loop_done_ties|done].
      by apply queue_keyed; [apply data_inv_loop_done|]. }
    revert Hall. rewrite ingest_cases, Hsort.
    destruct (isProcessing st); [done|]. unfold processBatches.
    pose proof (loop_head_fifo (set_isProcessing true (stored l p now st q)) Hq) as H.
    destruct (loop_head _) as [[st1 [a|]] acts]; by fields.
  - done.
  - intros Hall.
    assert (all_ranked (heap st)) as Hall0.
    { revert Hall. apply all_ranked_frozen. by rewrite fetches_settled_frozen. }
    specialize (Hs Hall0).
    apply (fifo_frozen (heap st)); [by rewrite fetches_settled_frozen|].
    unfold fetches_settled. by destruct (activations st !! n) as [[b|]|].
  - intros Hall.
    assert (all_ranked (heap st)) as Hall0.
    { revert Hall. apply all_ranked_frozen. by rewrite cooldown_elapsed_frozen. }
    specialize (Hs Hall0). unfold cooldown_elapsed in *.
    destruct (activations st !! n) as [[b|]|]; [done| |done].
    pose proof (loop_head_fifo st Hs) as H.
    destruct (loop_head _) as [[st1 [a|]] acts]; by fields.
Qed.

Lemma fifo_inv_run evs : fifo_inv (run evs).
Proof.
  induction evs as [|e evs IH] using rev_ind.
  - intros _. constructor.
  - rewrite run_snoc. apply fifo_inv_step; [apply run_inv|done].
Qed.

(** X14.  The re-sort is stable where it matters.  In every reachable state
    in which every batch created so far has a priority with a rank, a batch
    that stands earlier in the queue is not after a later one in (priority
    rank, created_time), and of two queued batches with the same rank and
    the same created_time the one that was created first stands first. *)
Theorem X14_ties_are_served_in_creation_order (evs : list event) (i j : nat) (r r' : ref) :
  all_ranked (heap (run evs)) → (i < j)%nat →
  processingQueue (run evs) !! i = Some r →
  processingQueue (run evs) !! j = Some r' →
  sched_le (heap (run evs)) r r'
  ∧ (sched_key (heap (run evs)) r = sched_key (heap (run evs)) r' → (r < r')%nat).
Proof.
  intros Hall Hij Hi Hj.
  apply (StronglySorted_lookup (fifo_le (heap (run evs))) _ i j r r'
           (fifo_inv_run evs Hall) Hij Hi Hj).
Qed.

Lemma X14_ties_are_served_in_creation_order_witness :
  sched_le (heap (run c1_ranked_events)) 1%nat 2%nat
  ∧ (sched_key (heap (run c1_ranked_events)) 1%nat
     = sched_key (heap (run c1_ranked_events)) 2%nat → (1 < 2)%nat).
Proof.
  apply (X14_ties_are_served_in_creation_order c1_ranked_events 1 2 1 2).
  - intros b Hb. vm_compute in Hb.
    repeat (apply elem_of_cons in Hb as [->|Hb]; [by eexists|]).
    by apply elem_of_nil in Hb.
  - lia.
  - by vm_compute.
  - by vm_compute.
Defined.

(** ** The aggregate status over time *)

Lemma elem_of_refresh_2 h r (m : list (uuid * ingestion)) k d :
  (k, d) ∈ m → refresh h r (k, d) ∈ refresh h r <$> m.
Proof. apply list_elem_of_fmap_2. Qed.

(** X15.  The aggregate status is not monotone.  In a reachable state in
    which the fetches of a batch are awaited, the stored ingestion that
    holds the batch reads triggered; if the ingestion also holds a batch
    that is still yet_to_start, then as soon as the fetches have settled,
    and for the whole cooldown, the ingestion reads yet_to_start again. *)
Theorem X15_status_falls_back_during_cooldown (evs : list event) (n : nat) (b r : ref)
    (k : uuid) (d : ingestion) :
  activations (run evs) !! n = Some (AwaitFetch b) →
  (k, d) ∈ ingestionStore (run evs) → b ∈ batches d → r ∈ batches d →
  status_of (heap (run evs)) r = Some yet_to_start →
  ingestion_status d = triggered
  ∧ ∃ d', (k, d') ∈ ingestionStore (step (run evs) (FetchesSettled n)).1
          ∧ batches d' = batches d
          ∧ ingestion_status d' = yet_to_start.
Proof.
  intros Hn Hin Hb Hr Hyts. destruct (run_inv evs) as [Hd Hc].
  assert (status_of (heap (run evs)) b = Some triggered) as Htrig.
  { apply (ci_inflight _ Hc). by eapply list_elem_of_lookup_2. }
  assert (batches d ≠ []) as Hne.
  { intros He. rewrite He in Hb. by apply elem_of_nil in Hb. }
  split.
  { rewrite (di_status _ Hd k d Hin Hne). by apply (overall_status_triggered _ _ b). }
  pose proof (step_inv (run evs) (FetchesSettled n) Hd Hc) as [_ Hc1].
  revert Hc1. cbn [step]. unfold fetches_settled. rewrite Hn. cbn [fst]. intros Hc1.
  fields. rewrite update_entries_refresh;
    [|rewrite length_alter; by eapply status_of_valid
     |rewrite batch_id_alter_status; apply (di_batch_ids _ Hd)
     |apply (di_store_nodup _ Hd)].
  set (h' := alter (with_status completed) b (heap (run evs))) in *.
  exists (refresh h' b (k, d)).2. split.
  { apply (elem_of_refresh_2 h' b) in Hin. unfold refresh in Hin |- *.
    simpl in *. by destruct (bool_decide _). }
  unfold refresh. simpl. rewrite bool_decide_eq_true_2 by done. simpl.
  split; [done|].
  pose proof (overall_status_spec h' (batches d)) as (_ & _ & Hspec).
  apply Hspec.
  - intros Hall. specialize (Hall r Hr). unfold h' in Hall.
    rewrite status_of_alter_ne in Hall by (intros ->; congruence). congruence.
  - intros (r' & Hr' & Hs').
    apply (ci_inflight _ Hc1) in Hs'. fields.
    pose proof (ci_single _ Hc) as Hlen.
    destruct (activations (run evs)) as [|a [|]]; [done| |simpl in Hlen; lia].
    destruct n as [|n]; [|done]. simpl in Hs'.
    by apply list_elem_of_singleton in Hs'.
Qed.

Lemma X15_status_falls_back_during_cooldown_witness :
  ingestion_status (Ingestion 0 triggered [0; 1; 2]%nat) = triggered
  ∧ ∃ d', (0%nat, d') ∈ ingestionStore (step (run [seven_ids]) (FetchesSettled 0)).1
          ∧ batches d' = batches (Ingestion 0 triggered [0; 1; 2]%nat)
          ∧ ingestion_status d' = yet_to_start.
Proof.
  apply (X15_status_falls_back_during_cooldown [seven_ids] 0 0 1 0
           (Ingestion 0 triggered [0; 1; 2]%nat)).
  - by vm_compute.
  - replace (ingestionStore (run [seven_ids]))
      with [(0%nat, Ingestion 0 triggered [0; 1; 2]%nat)] by (by vm_compute).
    left.
  - left.
  - right. left.
  - by vm_compute.
Defined.

Lemma completed_stays_step st e r :
  data_inv st → control_inv st →
  status_of (heap st) r = Some completed →
  status_of (heap (step st e).1) r = Some completed.
Proof.
  intros Hd Hc Hr. unfold status_of in *.
  destruct (heap st !! r) as [b|] eqn:Hb; [|done].
  destruct (step_advance st e Hd Hc r b Hb) as (b' & -> & _ & Hadv).
  simpl in *. injection Hr as Hr. rewrite Hr in Hadv.
  by destruct Hadv as [->|[[? _]|[? _]]].
Qed.

Lemma completed_stays_run_from st evs r :
  data_inv st → control_inv st →
  status_of (heap st) r = Some completed →
  status_of (heap (run_from st evs)) r = Some completed.
Proof.
  intros Hd Hc Hr. induction evs as [|e evs IH] using rev_ind; [done|].
  destruct (run_from_inv st evs Hd Hc) as [Hd1 Hc1].
  rewrite run_from_snoc. by apply completed_stays_step.
Qed.

(** X16.  Completed is final.  Once a stored ingestion that has batches
    reads completed in a reachable state, the status query for it answers
    completed after any further events, with the same batches, each of them
    completed. *)
Theorem X16_completed_ingestion_stays_completed (evs evs' : list event) (id : uuid)
    (d : ingestion) :
  Map_get id (ingestionStore (run evs)) = Some d →
  batches d ≠ [] → ingestion_status d = completed →
  ∃ d', Map_get id (ingestionStore (run_from (run evs) evs')) = Some d'
        ∧ batches d' = batches d
        ∧ ingestion_status d' = completed
        ∧ ∀ r, r ∈ batches d →
               status_of (heap (run_from (run evs) evs')) r = Some completed.
Proof.
  intros Hget Hne Hst. destruct (run_inv evs) as [Hd Hc].
  destruct (run_from_inv _ evs' Hd Hc) as [Hd1 Hc1].
  assert (∀ r, r ∈ batches d → status_of (heap (run evs)) r = Some completed) as Hall.
  { apply forallb_has_status.
    pose proof (di_status _ Hd id d (Map_get_elem _ _ _ Hget) Hne) as Heq.
    rewrite Hst in Heq. unfold overall_status in Heq.
    destruct (forallb _ _); [done|]. by destruct (existsb _ _). }
  destruct (run_from_keeps_entry _ evs' id d Hd Hc Hget) as (d' & Hget' & Hbs & _).
  assert (∀ r, r ∈ batches d →
               status_of (heap (run_from (run evs) evs')) r = Some completed) as Hall'.
  { intros r Hr. apply completed_stays_run_from; auto. }
  exists d'. split; [done|]. split; [done|]. split; [|done].
  rewrite (di_status _ Hd1 id d' (Map_get_elem _ _ _ Hget')) by congruence.
  unfold overall_status.
  assert (forallb (has_status (heap (run_from (run evs) evs')) completed) (batches d')
          = true) as ->; [|done].
  apply forallb_has_status. rewrite Hbs. done.
Qed.

Lemma X16_completed_ingestion_stays_completed_witness :
  ∃ d', Map_get 1 (ingestionStore (run_from (run c2_events) [one_id])) = Some d'
        ∧ batches d' = batches (Ingestion 1 completed [0%nat])
        ∧ ingestion_status d' = completed
        ∧ ∀ r, r ∈ batches (Ingestion 1 completed [0%nat]) →
               status_of (heap (run_from (run c2_events) [one_id])) r = Some completed.
Proof.
  apply (X16_completed_ingestion_stays_completed c2_events [one_id] 1
           (Ingestion 1 completed [0%nat])).
  - by vm_compute.
  - discriminate.
  - done.
Defined.

(** ** Reconciliation *)

Lemma update_entries_no_owner h r m :
  (∀ k d r', (k, d) ∈ m → r' ∈ batches d → same_batch_id h r' r = false) →
  update_entries h r m = m.
Proof.
  induction m as [|[k d] m IH]; intros Hno; [done|]. simpl.
  destruct (findIndex _ (batches d)) as [i|] eqn:Hi.
  - apply findIndex_Some in Hi as (r' & Hr' & Hsame).
    rewrite (Hno k d r') in Hsame; [done|by left|by eapply list_elem_of_lookup_2].
  - rewrite IH; [done|]. intros k' d' r' Hin. apply (Hno k'). by right.
Qed.

(** X17.  Reconciliation of a batch that no stored ingestion holds does
    nothing: when no batch of any stored ingestion has the batch id of the
    updated batch, [updateIngestionStatus] returns the state as it was. *)
Theorem X17_reconciling_an_unknown_batch_is_a_no_op (st : state) (r : ref) :
  (∀ k d r', (k, d) ∈ ingestionStore st → r' ∈ batches d →
             same_batch_id (heap st) r' r = false) →
  updateIngestionStatus r st = st.
Proof.
  intros Hno. unfold updateIngestionStatus.
  rewrite update_entries_no_owner by done. by destruct st.
Qed.

Lemma X17_reconciling_an_unknown_batch_is_a_no_op_witness :
  updateIngestionStatus 3 (run [seven_ids; poison]) = run [seven_ids; poison].
Proof.
  apply (X17_reconciling_an_unknown_batch_is_a_no_op (run [seven_ids; poison]) 3%nat).
  intros k d r' Hin Hr'.
  replace (ingestionStore (run [seven_ids; poison]))
    with [(0%nat, Ingestion 0 triggered [0; 1; 2]%nat)] in Hin by (by vm_compute).
  apply list_elem_of_singleton in Hin. injection Hin as -> ->. simpl in Hr'.
  repeat (apply elem_of_cons in Hr' as [->|Hr']; [by vm_compute|]).
  by apply elem_of_nil in Hr'.
Defined.

(** X18.  Reconciliation touches one status and nothing else.  In a
    reachable state, [updateIngestionStatus] for an existing batch object
    keeps the order, the keys, the ids and the [batches] arrays of all
    stored ingestions; the ingestion that holds the batch gets the status
    its batches determine and every other ingestion is left as it was. *)
Theorem X18_reconciliation_recomputes_one_status (evs : list event) (r : ref) :
  (r < length (heap (run evs)))%nat →
  ingestionStore (updateIngestionStatus r (run evs))
  = refresh (heap (run evs)) r <$> ingestionStore (run evs)
  ∧ heap (updateIngestionStatus r (run evs)) = heap (run evs)
  ∧ processingQueue (updateIngestionStatus r (run evs)) = processingQueue (run evs).
Proof.
  intros Hr. destruct (run_inv evs) as [Hd _]. fields.
  split; [|done]. apply update_entries_refresh; [done|..].
  - apply (di_batch_ids _ Hd).
  - apply (di_store_nodup _ Hd).
Qed.

Lemma X18_reconciliation_recomputes_one_status_witness :
  ingestionStore (updateIngestionStatus 0 (run [seven_ids]))
  = refresh (heap (run [seven_ids])) 0 <$> ingestionStore (run [seven_ids])
  ∧ heap (updateIngestionStatus 0 (run [seven_ids])) = heap (run [seven_ids])
  ∧ processingQueue (updateIngestionStatus 0 (run [seven_ids]))
    = processingQueue (run [seven_ids]).
Proof.
  apply (X18_reconciliation_recomputes_one_status [seven_ids] 0%nat).
  vm_compute. lia.
Defined.
